(** * regression_lib: loss functions and gradient descent

    A shallow embedding of [logistic-regression/regression_lib.py].

    Number model.  The library computes on numpy arrays of binary64 floats.
    The definitions are written once over the interface [Scalar] and
    instantiated three times: at binary64 ([Scalar_b64], the arithmetic the
    code runs in, used to evaluate the code on concrete data), at the reals
    [R] (exact arithmetic, for the algebraic properties) and at the rationals
    [Q] (exact arithmetic that can be run).  A statement over [R] or [Q] is a
    statement about the formulas of the code in exact arithmetic; rounding,
    overflow and NaN only exist in the binary64 instance.

    Array model.  A [(k, n)] array is a [matrix] (its shape and its list of
    rows); a [(k, 1)] column array is the list of its entries.  numpy raises
    on ill-shaped operands; the definitions below are total (zipping stops at
    the shorter operand) and the theorems carry the shape hypotheses under
    which numpy does not raise.

    Object model.  [gradient_descent] is a generator that allocates one
    parameter array, updates it in place and yields a reference to it.  The
    arrays live in a [heap]; the generator is a [frame] resumed by [next]. *)

From Stdlib Require Import PrimFloat.
From Stdlib Require Import Reals Lra Lia QArith Qreals List.
From stdpp Require Import gmap list.
Import ListNotations.

(** ** Scalars *)

Class Scalar (A : Type) := {
  fzero : A;
  fone : A;
  fadd : A -> A -> A;
  fsub : A -> A -> A;
  fmul : A -> A -> A;
  fdiv : A -> A -> A;
  fneg : A -> A;
  flt : A -> A -> bool;
  fmax : A -> A -> A;
  of_int : nat -> A
}.

Declare Scope num_scope.
Delimit Scope num_scope with num.
Notation "0" := fzero : num_scope.
Notation "1" := fone : num_scope.
Notation "2" := (of_int 2) : num_scope.
Infix "+" := fadd : num_scope.
Infix "-" := fsub : num_scope.
Infix "*" := fmul : num_scope.
Infix "/" := fdiv : num_scope.
Notation "- x" := (fneg x) : num_scope.
Infix "<?" := flt : num_scope.

Definition Rltb (a b : R) : bool := if Rlt_dec a b then true else false.

#[export] Instance Scalar_R : Scalar R := {|
  fzero := 0%R; fone := 1%R;
  fadd := Rplus; fsub := Rminus; fmul := Rmult; fdiv := Rdiv; fneg := Ropp;
  flt := Rltb; fmax := Rmax; of_int := INR
|}.

(** Rationals are kept in lowest terms after every operation, so that long
    runs stay small; [Qred] does not change the number denoted. *)
Definition Qltb (a b : Q) : bool := negb (Qle_bool b a).
Definition Qmaximum (a b : Q) : Q := if Qle_bool a b then b else a.

#[export] Instance Scalar_Q : Scalar Q := {|
  fzero := 0%Q; fone := 1%Q;
  fadd := fun a b => Qred (a + b)%Q;
  fsub := fun a b => Qred (a - b)%Q;
  fmul := fun a b => Qred (a * b)%Q;
  fdiv := fun a b => Qred (a / b)%Q;
  fneg := Qopp;
  flt := Qltb; fmax := Qmaximum; of_int := fun n => inject_Z (Z.of_nat n)
|}.

(** binary64, as numpy uses it: IEEE 754 operations rounding to nearest
    even.  [np.maximum] returns a NaN operand if there is one.  A Python
    [int] such as [k] or [2] is converted exactly (for counts below 2^53). *)
Definition b64_maximum (a b : float) : float :=
  if PrimFloat.is_nan a then a
  else if PrimFloat.is_nan b then b
  else if PrimFloat.ltb a b then b else a.

Fixpoint b64_of_nat (n : nat) : float :=
  match n with
  | O => 0%float
  | S n => PrimFloat.add (b64_of_nat n) 1%float
  end.

#[export] Instance Scalar_b64 : Scalar float := {|
  fzero := 0%float; fone := 1%float;
  fadd := PrimFloat.add; fsub := PrimFloat.sub; fmul := PrimFloat.mul;
  fdiv := PrimFloat.div; fneg := PrimFloat.opp;
  flt := PrimFloat.ltb; fmax := b64_maximum; of_int := b64_of_nat
|}.

(** ** Arrays *)

Record matrix (A : Type) := Matrix {
  nrows : nat;
  ncols : nat;
  rows : list (list A)
}.
Arguments Matrix {A} _ _ _.
Arguments nrows {A} _.
Arguments ncols {A} _.
Arguments rows {A} _.

(** [X.shape == (k, n)] really describes the data. *)
Definition well_shaped {A} (X : matrix A) : Prop :=
  length (rows X) = nrows X /\ Forall (fun r => length r = ncols X) (rows X).

Section Numpy.
Context {A : Type} `{Scalar A}.
Local Open Scope num_scope.

(** [np.zeros((n, 1))] *)
Definition zeros (n : nat) : list A := replicate n 0.

(** [np.zeros_like(v)] *)
Definition zeros_like (v : list A) : list A := zeros (length v).

(** [np.sum(v)]: accumulation from the left, starting at 0. *)
Definition np_sum (v : list A) : A := fold_left fadd v 0.

(** [u * v] on arrays of the same shape. *)
Definition vmul (u v : list A) : list A := zip_with fmul u v.

(** [np.dot(u.T, v)] for two column arrays: a [(1, 1)] array, read through
    [.flat[0]] or used where a scalar is. *)
Definition vdot (u v : list A) : A := np_sum (vmul u v).

(** [X.dot(theta)]: a [(k, 1)] array. *)
Definition mat_dot (X : matrix A) (theta : list A) : list A :=
  map (fun r => vdot r theta) (rows X).

(** [M[:, j]] on the rows of a 2-d array. *)
Definition column (M : list (list A)) (j : nat) : list A :=
  map (fun r => nth j r 0) M.

(** [y * X] with [y] of shape [(k, 1)] broadcast across the columns. *)
Definition broadcast_mul (y : list A) (M : list (list A)) : list (list A) :=
  zip_with (fun yi r => map (fmul yi) r) y M.

(** [np.maximum(u, v)] *)
Definition np_maximum (u v : list A) : list A := zip_with fmax u v.

(** [np.where(sel, v, 0)] *)
Definition np_where0 (sel : list bool) (v : list A) : list A :=
  zip_with (fun (b : bool) x => if b then x else 0) sel v.

(** [for j in range(n): dtheta[j, 0] = entry j], starting from [init].
    Each pass stores one entry in place. *)
Definition fill_entries (n : nat) (entry : nat -> A) (init : list A) : list A :=
  fold_left (fun d j => <[j := entry j]> d) (seq 0 n) init.

(** *** Loss functions *)

Definition square_loss (X : matrix A) (y theta : list A) (reg_beta : A)
  : A * list A :=
  let k := nrows X in
  let n := ncols X in
  let margin := vmul y (mat_dot X theta) in
  let diff := map (fun m => m - 1) margin in
  let loss := vdot diff diff / of_int k + vdot theta theta * reg_beta / 2 in
  let dtheta :=
    fill_entries n
      (fun j => 2 * vdot (vmul diff y) (column (rows X) j) / of_int k
                + reg_beta * nth j theta 0)
      (zeros_like theta) in
  (loss, dtheta).

Definition hinge_loss (X : matrix A) (y theta : list A) (reg_beta : A)
  : A * list A :=
  let k := nrows X in
  let n := ncols X in
  let margin := vmul y (mat_dot X theta) in
  let loss :=
    np_sum (np_maximum (zeros_like margin) (map (fun m => 1 - m) margin))
      / of_int k
    + vdot theta theta * reg_beta / 2 in
  let yx := broadcast_mul y (rows X) in
  let margin_selector := map (fun m => m <? 1) margin in
  let dtheta :=
    fill_entries n
      (fun j => np_sum (np_where0 margin_selector (map fneg (column yx j)))
                  / of_int k
                + reg_beta * nth j theta 0)
      (zeros_like theta) in
  (loss, dtheta).

End Numpy.

(** ** The optimizer *)

(** Addresses of array objects, and the store that holds their contents. *)
Abbreviation loc := nat (only parsing).
Abbreviation heap A := (gmap loc (list A)) (only parsing).

(** Where a generator object stands.  [loss] is dead at both [yield]s (it is
    reassigned before its next use), so a suspended frame keeps the loop
    counter, the reference [theta] and the last gradient. *)
Inductive frame (A : Type) :=
| Created
| Suspended (step : nat) (theta : loc) (dtheta : list A)
| Exhausted.
Arguments Created {A}.
Arguments Suspended {A} _ _ _.
Arguments Exhausted {A}.

Section GradientDescent.
Context {A : Type} `{Scalar A}.
Local Open Scope num_scope.

(** A loss function as [gradient_descent] calls it: [lossfunc(X, y, theta)],
    reading the array behind [theta] and returning [(loss, dtheta)]. *)
Definition lossfunc_t := matrix A -> list A -> list A -> A * list A.

Variable X : matrix A.
Variable y : list A.
Variable lossfunc : lossfunc_t.
Variable nsteps : nat.
Variable learning_rate : A.

(** The new contents of the array after [theta -= learning_rate * dtheta]. *)
Definition descend (theta dtheta : list A) : list A :=
  zip_with (fun t g => t - learning_rate * g) theta dtheta.

(** One resumption of the generator: runs the body up to the next [yield]
    (giving the yielded pair) or to its end (giving [None], StopIteration).
    A frame keeps its array alive, so the lookup of [theta] is total. *)
Definition next (f : frame A) (h : heap A)
  : option (loc * A) * frame A * heap A :=
  match f with
  | Created =>
      let n := ncols X in
      let theta := fresh (dom h) in
      let h := <[theta := zeros n]> h in
      let '(loss, dtheta) := lossfunc X y (h !!! theta) in
      (Some (theta, loss), Suspended 0 theta dtheta, h)
  | Suspended step theta dtheta =>
      if decide (step < nsteps)%nat then
        let h := <[theta := descend (h !!! theta) dtheta]> h in
        let '(loss, dtheta) := lossfunc X y (h !!! theta) in
        (Some (theta, loss), Suspended (S step) theta dtheta, h)
      else (None, Exhausted, h)
  | Exhausted => (None, Exhausted, h)
  end.

(** A consumer's [for theta, loss in gradient_descent(...)] loop that
    records [obs] of each pair at the moment it is yielded and touches
    nothing else.  [None]: the fuel ran out before StopIteration. *)
Fixpoint consume {B : Type} (obs : heap A -> loc * A -> B)
    (fuel : nat) (f : frame A) (h : heap A) : option (list B * heap A) :=
  match fuel with
  | O => None
  | S fuel =>
      match next f h with
      | (None, _, h) => Some ([], h)
      | (Some p, f, h) =>
          match consume obs fuel f h with
          | Some (out, hfin) => Some (obs h p :: out, hfin)
          | None => None
          end
      end
  end.

(** [gradient_descent(X, y, lossfunc, nsteps, learning_rate)]: calling a
    generator function only creates the generator object. *)
Definition gradient_descent : frame A := Created.

(** [list(gradient_descent(...))]: the pairs as yielded, references kept. *)
Definition list_of : nat -> frame A -> heap A -> option (list (loc * A) * heap A) :=
  consume (fun _ p => p).

(** [[(theta.copy(), loss) for theta, loss in gradient_descent(...)]]:
    the contents of [theta] read when the pair is yielded. *)
Definition snapshots : nat -> frame A -> heap A -> option (list (list A * A) * heap A) :=
  consume (fun h p => (h !!! fst p, snd p)).

(** The sequence of section 4.4 of the specification, as values:
    [theta_0] is the zero vector, and
    [theta_(i+1) = theta_i - learning_rate * dtheta_i]
    with [dtheta_i] the gradient returned at [theta_i]. *)
Fixpoint spec_theta (i : nat) : list A :=
  match i with
  | O => zeros (ncols X)
  | S i => let th := spec_theta i in descend th (snd (lossfunc X y th))
  end.

Definition spec_pair (i : nat) : list A * A :=
  (spec_theta i, fst (lossfunc X y (spec_theta i))).

End GradientDescent.

(** The loss functions with their default [reg_beta=0.0], as
    [gradient_descent] calls them. *)
Definition square_lossfunc {A} `{Scalar A} : lossfunc_t :=
  fun X y theta => square_loss X y theta 0%num.
Definition hinge_lossfunc {A} `{Scalar A} : lossfunc_t :=
  fun X y theta => hinge_loss X y theta 0%num.

(** ** Preprocessing and predictors *)

Section Predictors.
Context {A : Type} `{Scalar A}.
Local Open Scope num_scope.

(** [np.ones((k, 1))] as a 2-d array: [k] rows of one entry. *)
Definition ones_column (k : nat) : list (list A) := replicate k [1].

(** [np.hstack((L, M))] on the rows of two 2-d arrays. *)
Definition hstack (L M : list (list A)) : list (list A) := zip_with app L M.

Definition augment_1s_column (X : matrix A) : matrix A :=
  Matrix (nrows X) (S (ncols X)) (hstack (ones_column (nrows X)) (rows X)).

(** [np.sign] on one entry. *)
Definition sign (x : A) : A :=
  if x <? 0 then fneg 1 else if 0 <? x then 1 else 0.

Definition predict_binary (X : matrix A) (theta : list A) : list A :=
  let yhat := mat_dot X theta in
  map sign yhat.

End Predictors.

Section RealFunctions.
Local Open Scope R_scope.

(** [sigmoid] on one entry, and on an array. *)
Definition sigmoid1 (z : R) : R := 1 / (1 + exp (- z)).
Definition sigmoid (z : list R) : list R := map sigmoid1 z.

Definition predict_logistic_probability (X : matrix R) (theta : list R)
  : list R :=
  let z := mat_dot X theta in
  sigmoid z.

(** [X.mean(axis=0)]: for each column, the sum of its entries over the
    number of rows. *)
Definition mean_axis0 (X : matrix R) : list R :=
  map (fun j => np_sum (column (rows X) j) / INR (nrows X))
      (seq 0 (ncols X)).

(** [X.std(axis=0)] (numpy's default [ddof=0]): for each column, the square
    root of the mean of the squared deviations from the column's mean. *)
Definition std_axis0 (X : matrix R) : list R :=
  map (fun j =>
         let c := column (rows X) j in
         let m := np_sum c / INR (nrows X) in
         sqrt (np_sum (map (fun x => (x - m) * (x - m)) c) / INR (nrows X)))
      (seq 0 (ncols X)).

(** [M - v] and [M / v] with the row [v] broadcast down the rows of [M]. *)
Definition rows_minus (M : list (list R)) (v : list R) : list (list R) :=
  map (fun r => zip_with Rminus r v) M.
Definition rows_div (M : list (list R)) (v : list R) : list (list R) :=
  map (fun r => zip_with Rdiv r v) M.

Definition feature_normalize (X : matrix R) : matrix R * list R * list R :=
  let num_features := ncols X in
  let mu := mean_axis0 X in
  let sigma := std_axis0 X in
  let X_norm :=
    Matrix (nrows X) (ncols X) (rows_div (rows_minus (rows X) mu) sigma) in
  (X_norm, mu, sigma).

(** *** The specification's formulas, written with indexed sums *)

(** [sum_(i < k) f i] *)
Definition bigsum (k : nat) (f : nat -> R) : R :=
  fold_right Rplus 0 (map f (seq 0 k)).

(** [X[i, j]] *)
Definition entry (X : matrix R) (i j : nat) : R :=
  nth j (nth i (rows X) []) 0.

(** [margin[i] = y[i] * (X . theta)[i]] *)
Definition spec_margin (X : matrix R) (y theta : list R) (i : nat) : R :=
  nth i y 0 * bigsum (ncols X) (fun j => entry X i j * nth j theta 0).

(** [||theta||^2] *)
Definition norm2 (theta : list R) : R :=
  bigsum (length theta) (fun j => nth j theta 0 * nth j theta 0).

(** [mean(diff^2) + (reg_beta / 2) * ||theta||^2] *)
Definition spec_square_value (X : matrix R) (y theta : list R) (reg_beta : R) : R :=
  bigsum (nrows X) (fun i => (spec_margin X y theta i - 1) ^ 2) / INR (nrows X)
  + reg_beta / 2 * norm2 theta.

(** [(2 / k) * sum_i diff[i] * y[i] * X[i, j] + reg_beta * theta[j]] *)
Definition spec_square_grad (X : matrix R) (y theta : list R) (reg_beta : R)
    (j : nat) : R :=
  2 / INR (nrows X)
  * bigsum (nrows X)
      (fun i => (spec_margin X y theta i - 1) * nth i y 0 * entry X i j)
  + reg_beta * nth j theta 0.

(** [mean(max(0, 1 - margin)) + (reg_beta / 2) * ||theta||^2] *)
Definition spec_hinge_value (X : matrix R) (y theta : list R) (reg_beta : R) : R :=
  bigsum (nrows X) (fun i => Rmax 0 (1 - spec_margin X y theta i)) / INR (nrows X)
  + reg_beta / 2 * norm2 theta.

(** The contribution of sample [i] to entry [j] of the hinge gradient. *)
Definition spec_hinge_contribution (X : matrix R) (y theta : list R)
    (i j : nat) : R :=
  if Rlt_dec (spec_margin X y theta i) 1 then - (nth i y 0 * entry X i j) else 0.

(** [(1 / k) * sum_i contribution + reg_beta * theta[j]] *)
Definition spec_hinge_grad (X : matrix R) (y theta : list R) (reg_beta : R)
    (j : nat) : R :=
  1 / INR (nrows X) * bigsum (nrows X) (fun i => spec_hinge_contribution X y theta i j)
  + reg_beta * nth j theta 0.

(** The mean and the population standard deviation of a list of numbers. *)
Definition mean (v : list R) : R :=
  bigsum (length v) (fun i => nth i v 0) / INR (length v).
Definition pstd (v : list R) : R :=
  sqrt (mean (map (fun x => (x - mean v) ^ 2) v)).

End RealFunctions.



(** The variance behind [pstd]. *)
Definition variance (v : list R) : R :=
  mean (map (fun x => ((x - mean v) ^ 2)%R) v).

(** ** Statements about runs *)

(** A caller that keeps every pair of an exhausted run and then reads the
    array behind the [i]-th pair finds the [i]-th iterate there. *)
Definition retains_history {A} `{Scalar A} (X : matrix A) (y : list A)
    (lossfunc : lossfunc_t) (nsteps : nat) (learning_rate : A) : Prop :=
  forall fuel (h : heap A) pairs hfin,
    list_of X y lossfunc nsteps learning_rate fuel gradient_descent h
      = Some (pairs, hfin) ->
    forall i p, pairs !! i = Some p ->
      hfin !!! fst p = spec_theta X y lossfunc learning_rate i.

(** Each loss is at most the one before it. *)
Fixpoint non_increasing (l : list Q) : Prop :=
  match l with
  | a :: (b :: _) as t => (b <= a)%Q /\ non_increasing t
  | _ => True
  end.

(** The same on binary64 losses: from index [few] on, and over a whole list. *)
Definition non_increasing_after64 (few : nat) (l : list float) : Prop :=
  forall i a b, (few <= i)%nat -> l !! i = Some a -> l !! S i = Some b ->
    PrimFloat.leb b a = true.

Fixpoint non_increasing64 (l : list float) : Prop :=
  match l with
  | a :: (b :: _) as t => PrimFloat.leb b a = true /\ non_increasing64 t
  | _ => True
  end.

(** Each loss is at most the one before it plus [slack]. *)
Fixpoint rises_at_most64 (slack : float) (l : list float) : Prop :=
  match l with
  | a :: (b :: _) as t =>
      PrimFloat.leb b (a + slack)%float = true /\ rises_at_most64 slack t
  | _ => True
  end.

(** ** Sample data *)

(** The toy set of section 8 of the specification. *)
Definition toy_X : matrix Q := Matrix 4 2 [[1; 1]; [1; 2]; [1; 3]; [1; 4]]%Q.
Definition toy_y : list Q := [1; 1; -1; -1]%Q.

(** The toy set in binary64, with the learning rate [0.1] as Python reads it. *)
Definition toy_X64 : matrix float :=
  Matrix 4 2 [[1; 1]; [1; 2]; [1; 3]; [1; 4]]%float.
Definition toy_y64 : list float := [1; 1; -1; -1]%float.
Definition tenth64 : float := 0x1.999999999999ap-4%float.


Definition unit_X : matrix R := Matrix 1 1 [[1%R]].
Definition unit_y : list R := [1%R].

Definition sample_X : matrix R := Matrix 2 2 [[1; 1]; [1; 2]]%R.
Definition sample_y : list R := [1; -1]%R.
Definition sample_theta : list R := [1 / 2; -1]%R.
Definition sample_column : matrix R := Matrix 2 1 [[1]; [3]]%R.

Definition const_column : matrix R := Matrix 2 1 [[5]; [5]]%R.
Definition sample_delta : list R := [1; 1]%R.

(** * Proofs *)

(** ** Filling an array entry by entry *)
Section FillEntries.
Context {A : Type} `{Scalar A}.

Lemma fill_entries_S n (e : nat -> A) init :
  fill_entries (S n) e init = <[n := e n]> (fill_entries n e init).
Proof.
  unfold fill_entries. rewrite seq_S, fold_left_app. reflexivity.
Qed.

Lemma fill_entries_length n (e : nat -> A) init :
  length (fill_entries n e init) = length init.
Proof.
  induction n as [|n IH]; [reflexivity|].
  rewrite fill_entries_S, length_insert. exact IH.
Qed.

Lemma fill_entries_lookup n (e : nat -> A) init j :
  fill_entries n e init !! j =
  if decide (j < n)%nat then (fun _ => e j) <$> init !! j else init !! j.
Proof.
  induction n as [|n IH].
  - case_decide; [lia | reflexivity].
  - rewrite fill_entries_S.
    destruct (decide (j = n)) as [->|Hne].
    + rewrite decide_True by lia.
      destruct (decide (n < length init)%nat) as [Hlt|Hge].
      * rewrite list_lookup_insert_eq by (rewrite fill_entries_length; exact Hlt).
        destruct (lookup_lt_is_Some_2 init n Hlt) as [x ->]. reflexivity.
      * rewrite list_insert_ge by (rewrite fill_entries_length; lia).
        rewrite IH, decide_False by lia.
        rewrite (lookup_ge_None_2 init n) by lia. reflexivity.
    + rewrite list_lookup_insert_ne by congruence. rewrite IH.
      repeat case_decide; try lia; reflexivity.
Qed.

Lemma fill_entries_full n (e : nat -> A) init :
  length init = n -> fill_entries n e init = map e (seq 0 n).
Proof.
  intros Hlen. apply list_eq. intros j.
  rewrite fill_entries_lookup.
  change (map e (seq 0 n)) with (e <$> seq 0 n).
  rewrite list_lookup_fmap.
  destruct (decide (j < n)%nat) as [Hlt|Hge].
  - rewrite lookup_seq_lt by exact Hlt.
    destruct (lookup_lt_is_Some_2 init j) as [x ->]; [lia|]. reflexivity.
  - rewrite lookup_seq_ge by lia. apply lookup_ge_None_2. lia.
Qed.
End FillEntries.

(** ** Runs of the generator *)
Section Generator.
Context {A : Type} `{Scalar A}.
Variable X : matrix A.
Variable y : list A.
Variable lossfunc : lossfunc_t (A:=A).
Variable nsteps : nat.
Variable learning_rate : A.

Local Abbreviation theta_at := (spec_theta X y lossfunc learning_rate).
Local Abbreviation loss_at i := (fst (lossfunc X y (theta_at i))).
Local Abbreviation grad_at i := (snd (lossfunc X y (theta_at i))).
Local Abbreviation gd_next := (next X y lossfunc nsteps learning_rate).
Local Abbreviation gd_consume := (consume X y lossfunc nsteps learning_rate).

(** Resuming a generator parked after [i < nsteps] iterations. *)
Lemma next_suspended_step i l (h0 : gmap nat (list A)) :
  (i < nsteps)%nat ->
  gd_next (Suspended i l (grad_at i)) (<[l := theta_at i]> h0) =
  (Some (l, loss_at (S i)), Suspended (S i) l (grad_at (S i)),
   <[l := theta_at (S i)]> h0).
Proof.
  intros Hlt. unfold next. rewrite decide_True by exact Hlt.
  rewrite insert_insert_eq, !lookup_total_insert_eq. cbn [spec_theta].
  destruct (lossfunc X y _) as [loss d]. reflexivity.
Qed.

Lemma next_suspended_stop l d (h : gmap nat (list A)) :
  gd_next (Suspended nsteps l d) h = (None, Exhausted, h).
Proof. unfold next. rewrite decide_False by lia. reflexivity. Qed.

Lemma next_created (h : gmap nat (list A)) :
  let l := fresh (dom h) in
  gd_next Created h =
  (Some (l, loss_at 0), Suspended 0 l (grad_at 0), <[l := theta_at 0]> h).
Proof.
  cbn. rewrite lookup_total_insert_eq.
  destruct (lossfunc X y _) as [loss d]. reflexivity.
Qed.

Lemma consume_suspended {B} (obs : gmap nat (list A) -> nat * A -> B) l h0 d :
  forall i fuel, (i + d = nsteps)%nat -> (d < fuel)%nat ->
  gd_consume obs fuel (Suspended i l (grad_at i)) (<[l := theta_at i]> h0) =
  Some (map (fun j => obs (<[l := theta_at j]> h0) (l, loss_at j)) (seq (S i) d),
        <[l := theta_at nsteps]> h0).
Proof.
  induction d as [|d IH]; intros i fuel Hi Hfuel.
  - destruct fuel as [|fuel]; [lia|].
    assert (i = nsteps) as -> by lia.
    cbn [consume]. rewrite next_suspended_stop. reflexivity.
  - destruct fuel as [|fuel]; [lia|].
    cbn [consume]. rewrite next_suspended_step by lia.
    rewrite (IH (S i) fuel) by lia. reflexivity.
Qed.

Lemma consume_created {B} (obs : gmap nat (list A) -> nat * A -> B) h fuel :
  (S nsteps < fuel)%nat ->
  let l := fresh (dom h) in
  gd_consume obs fuel Created h =
  Some (map (fun j => obs (<[l := theta_at j]> h) (l, loss_at j)) (seq 0 (S nsteps)),
        <[l := theta_at nsteps]> h).
Proof.
  intros Hfuel l. destruct fuel as [|fuel]; [lia|].
  cbn [consume]. rewrite next_created. fold l.
  rewrite (consume_suspended obs l h nsteps 0 fuel) by lia. reflexivity.
Qed.

Lemma snapshots_run h fuel :
  (S nsteps < fuel)%nat ->
  snapshots X y lossfunc nsteps learning_rate fuel gradient_descent h =
  Some (map (spec_pair X y lossfunc learning_rate) (seq 0 (S nsteps)),
        <[fresh (dom h) := theta_at nsteps]> h).
Proof.
  intros Hfuel. unfold snapshots, gradient_descent.
  rewrite consume_created by exact Hfuel. f_equal. f_equal.
  apply map_ext. intros j. cbn [fst snd]. 
  rewrite lookup_total_insert_eq. reflexivity.
Qed.

Lemma list_of_run h fuel :
  (S nsteps < fuel)%nat ->
  list_of X y lossfunc nsteps learning_rate fuel gradient_descent h =
  Some (map (fun j => (fresh (dom h), loss_at j)) (seq 0 (S nsteps)),
        <[fresh (dom h) := theta_at nsteps]> h).
Proof.
  intros Hfuel. unfold list_of, gradient_descent.
  rewrite consume_created by exact Hfuel. reflexivity.
Qed.
End Generator.

(** C1: a run of [gradient_descent] with [nsteps = N] yields exactly [N + 1]
    pairs and then stops; the theta of the first pair has [ncols X] entries,
    all of them 0, and its loss is the loss of [lossfunc] at that theta.  The
    pairs are read at the moment they are yielded. *)
Theorem gradient_descent_yields {A} `{Scalar A} (X : matrix A) (y : list A)
    (lossfunc : lossfunc_t) (nsteps : nat) (learning_rate : A)
    (h : gmap nat (list A)) (fuel : nat) :
  (S nsteps < fuel)%nat ->
  exists out hfin theta0 loss0,
    snapshots X y lossfunc nsteps learning_rate fuel gradient_descent h
      = Some (out, hfin) /\
    length out = (nsteps + 1)%nat /\
    out !! 0%nat = Some (theta0, loss0) /\
    length theta0 = ncols X /\
    (forall j, (j < ncols X)%nat -> theta0 !! j = Some fzero) /\
    loss0 = fst (lossfunc X y theta0).
Proof.
  intros Hfuel. eexists _, _, (zeros (ncols X)), _.
  split; [apply snapshots_run; exact Hfuel|].
  split; [rewrite length_map, length_seq; lia|].
  split; [reflexivity|].
  split; [apply length_replicate|].
  split; [|reflexivity].
  intros j Hj. apply lookup_replicate_2. exact Hj.
Qed.

Lemma gradient_descent_yields_witness :
  exists out hfin theta0 loss0,
    snapshots toy_X64 toy_y64 hinge_lossfunc 2 tenth64 4 gradient_descent ∅
      = Some (out, hfin) /\
    length out = (2 + 1)%nat /\
    out !! 0%nat = Some (theta0, loss0) /\
    length theta0 = ncols toy_X64 /\
    (forall j, (j < ncols toy_X64)%nat -> theta0 !! j = Some 0%float) /\
    loss0 = fst (hinge_lossfunc toy_X64 toy_y64 theta0).
Proof.
  refine (gradient_descent_yields toy_X64 toy_y64 hinge_lossfunc 2 tenth64 ∅ 4 _). lia.
Defined.

Lemma descend_lookup {A} `{Scalar A} (lr : A) (theta dtheta : list A) j t g :
  theta !! j = Some t -> dtheta !! j = Some g ->
  descend lr theta dtheta !! j = Some (fsub t (fmul lr g)).
Proof.
  intros Ht Hg. unfold descend. rewrite lookup_zip_with, Ht, Hg. reflexivity.
Qed.

Lemma descend_length {A} `{Scalar A} (lr : A) (theta dtheta : list A) :
  length dtheta = length theta -> length (descend lr theta dtheta) = length theta.
Proof. intros Hlen. unfold descend. rewrite length_zip_with. lia. Qed.

(** C2: for every step [i] in [1..nsteps], the theta of the [i]-th pair (read
    when it is yielded) is the previous theta minus [learning_rate] times the
    gradient [lossfunc] returned at the previous theta, entry by entry (and of
    the same length when the gradient has the length of theta), and its loss
    is [lossfunc] evaluated again at the updated theta. *)
Theorem gradient_descent_step {A} `{Scalar A} (X : matrix A) (y : list A)
    (lossfunc : lossfunc_t) (nsteps : nat) (learning_rate : A)
    (h : gmap nat (list A)) (fuel : nat) :
  (S nsteps < fuel)%nat ->
  exists out hfin,
    snapshots X y lossfunc nsteps learning_rate fuel gradient_descent h
      = Some (out, hfin) /\
    forall i, (1 <= i <= nsteps)%nat ->
      exists prev cur,
        out !! (i - 1)%nat = Some prev /\ out !! i = Some cur /\
        fst cur = descend learning_rate (fst prev) (snd (lossfunc X y (fst prev))) /\
        (forall j t g,
           fst prev !! j = Some t ->
           snd (lossfunc X y (fst prev)) !! j = Some g ->
           fst cur !! j = Some (fsub t (fmul learning_rate g))) /\
        (length (snd (lossfunc X y (fst prev))) = length (fst prev) ->
         length (fst cur) = length (fst prev)) /\
        snd cur = fst (lossfunc X y (fst cur)).
Proof.
  intros Hfuel. eexists _, _. split; [apply snapshots_run; exact Hfuel|].
  intros i Hi. destruct i as [|i]; [lia|].
  exists (spec_pair X y lossfunc learning_rate i),
         (spec_pair X y lossfunc learning_rate (S i)).
  change (map ?f ?l) with (f <$> l).
  rewrite !list_lookup_fmap, !lookup_seq_lt by lia.
  replace (S i - 1)%nat with i by lia.
  split; [reflexivity|]. split; [reflexivity|]. split; [reflexivity|].
  cbn [spec_pair fst snd spec_theta].
  split; [|split; [|reflexivity]].
  - intros j t g Ht Hg. apply descend_lookup; assumption.
  - apply descend_length.
Qed.

Lemma gradient_descent_step_witness :
  exists out hfin,
    snapshots toy_X64 toy_y64 hinge_lossfunc 2 tenth64 4 gradient_descent ∅
      = Some (out, hfin) /\
    forall i, (1 <= i <= 2)%nat ->
      exists prev cur,
        out !! (i - 1)%nat = Some prev /\ out !! i = Some cur /\
        fst cur = descend tenth64 (fst prev)
                    (snd (hinge_lossfunc toy_X64 toy_y64 (fst prev))) /\
        (forall j t g,
           fst prev !! j = Some t ->
           snd (hinge_lossfunc toy_X64 toy_y64 (fst prev)) !! j = Some g ->
           fst cur !! j = Some (t - tenth64 * g)%float) /\
        (length (snd (hinge_lossfunc toy_X64 toy_y64 (fst prev))) = length (fst prev) ->
         length (fst cur) = length (fst prev)) /\
        snd cur = fst (hinge_lossfunc toy_X64 toy_y64 (fst cur)).
Proof.
  refine (gradient_descent_step toy_X64 toy_y64 hinge_lossfunc 2 tenth64 ∅ 4 _). lia.
Defined.

(** C6 fails in binary64: on the toy set with [hinge_loss], 50 steps and
    learning rate 0.1, the loss of step 29 is greater than the loss of
    step 28, so the losses are not non-increasing from any step up to 28. *)
Lemma hinge_toy_run_b64_rises :
  exists out hfin,
    snapshots toy_X64 toy_y64 hinge_lossfunc 50 tenth64 52 gradient_descent ∅
      = Some (out, hfin) /\
    map snd out !! 28%nat = Some 0x1.3333333333332p-1%float /\
    map snd out !! 29%nat = Some 0x1.3333333333333p-1%float /\
    PrimFloat.ltb 0x1.3333333333332p-1 0x1.3333333333333p-1 = true /\
    forall few, (few <= 28)%nat -> ~ non_increasing_after64 few (map snd out).
Proof.
  eexists _, _. split; [vm_compute; reflexivity|].
  split; [reflexivity|]. split; [reflexivity|]. split; [reflexivity|].
  intros few Hfew Hmono.
  specialize (Hmono 28%nat _ _ Hfew eq_refl eq_refl).
  vm_compute in Hmono. discriminate.
Qed.

(** The same run in exact arithmetic. *)
Lemma hinge_toy_run_exact :
  exists out hfin,
    snapshots toy_X toy_y hinge_lossfunc 50 (1 # 10)%Q 52 gradient_descent ∅
      = Some (out, hfin) /\
    length out = 51%nat /\
    non_increasing (map snd out) /\
    exists first last,
      out !! 0%nat = Some first /\ out !! 50%nat = Some last /\
      (snd last < snd first)%Q.
Proof.
  eexists _, _. split; [vm_compute; reflexivity|].
  split; [reflexivity|]. split.
  - cbn [map snd non_increasing]. repeat split; discriminate.
  - eexists _, _. repeat split; try reflexivity.
Qed.

(** C6, amended: on the toy set with [hinge_loss], 50 steps and learning rate
    0.1, the last of the 51 losses is strictly below the first.  In binary64
    no loss exceeds the one before it by more than 2^-52, and from step 29 on
    the losses never increase; in exact arithmetic they never increase from
    the first step on. *)
Theorem hinge_toy_run_losses :
  (exists out hfin,
     snapshots toy_X64 toy_y64 hinge_lossfunc 50 tenth64 52 gradient_descent ∅
       = Some (out, hfin) /\
     length out = 51%nat /\
     rises_at_most64 0x1p-52%float (map snd out) /\
     non_increasing64 (drop 29 (map snd out)) /\
     exists first last,
       out !! 0%nat = Some first /\ out !! 50%nat = Some last /\
       PrimFloat.ltb (snd last) (snd first) = true) /\
  (exists out hfin,
     snapshots toy_X toy_y hinge_lossfunc 50 (1 # 10)%Q 52 gradient_descent ∅
       = Some (out, hfin) /\
     length out = 51%nat /\
     non_increasing (map snd out) /\
     exists first last,
       out !! 0%nat = Some first /\ out !! 50%nat = Some last /\
       (snd last < snd first)%Q).
Proof.
  split; [|exact hinge_toy_run_exact].
  eexists _, _. split; [vm_compute; reflexivity|].
  split; [reflexivity|]. split; [|split].
  - vm_compute. repeat split.
  - vm_compute. repeat split.
  - eexists _, _. repeat split; reflexivity.
Qed.

Lemma unit_theta_0 :
  spec_theta unit_X unit_y hinge_lossfunc (1 / 10)%R 0 = [0%R].
Proof. reflexivity. Qed.

Lemma unit_theta_1 :
  spec_theta unit_X unit_y hinge_lossfunc (1 / 10)%R 1 = [(1 / 10)%R].
Proof.
  cbn. unfold Rltb. destruct (Rlt_dec _ _) as [_|Hge]; [|exfalso; apply Hge; lra].
  f_equal. lra.
Qed.

(** C5 fails: on the 1-by-1 data [X = [[1]]], [y = [[1]]] with [hinge_loss],
    one step and learning rate 1/10, the two pairs carry the same reference,
    and after the run the array behind the first pair holds [[1/10]], not the
    initial iterate [[0]]. *)
Lemma gradient_descent_aliasing_counterexample :
  (exists loss0 loss1 l,
     list_of unit_X unit_y hinge_lossfunc 1 (1 / 10)%R 3 gradient_descent ∅
       = Some ([(l, loss0); (l, loss1)], {[ l := [(1 / 10)%R] ]}) /\
     spec_theta unit_X unit_y hinge_lossfunc (1 / 10)%R 0 = [0%R]) /\
  ~ retains_history unit_X unit_y hinge_lossfunc 1 (1 / 10)%R.
Proof.
  pose proof (list_of_run unit_X unit_y hinge_lossfunc 1 (1 / 10)%R ∅ 3) as Hrun.
  rewrite unit_theta_1 in Hrun. cbn [seq map] in Hrun.
  split.
  - eexists _, _, _. split; [apply Hrun; lia | reflexivity].
  - intros Hkeep.
    specialize (Hkeep 3%nat ∅ _ _ (Hrun ltac:(lia)) 0%nat _ eq_refl).
    cbn [fst] in Hkeep. rewrite lookup_total_insert_eq, unit_theta_0 in Hkeep.
    injection Hkeep. lra.
Qed.

(** C5, amended: every pair carries a reference [l] to the one parameter
    array, allocated fresh by the generator; the loss of the [i]-th pair is
    the loss at the [i]-th iterate; whoever reads [l] at the [j]-th yield
    finds the [j]-th iterate, and after the run [l] holds the last iterate. *)
Theorem gradient_descent_shares_theta {A} `{Scalar A} (X : matrix A) (y : list A)
    (lossfunc : lossfunc_t) (nsteps : nat) (learning_rate : A)
    (h : gmap nat (list A)) (fuel : nat) :
  (S nsteps < fuel)%nat ->
  exists (l : nat) pairs hfin,
    h !! l = None /\
    list_of X y lossfunc nsteps learning_rate fuel gradient_descent h
      = Some (pairs, hfin) /\
    length pairs = S nsteps /\
    (forall i p, pairs !! i = Some p ->
       p = (l, fst (lossfunc X y (spec_theta X y lossfunc learning_rate i)))) /\
    consume X y lossfunc nsteps learning_rate (fun h' _ => h' !!! l)
        fuel gradient_descent h
      = Some (map (spec_theta X y lossfunc learning_rate) (seq 0 (S nsteps)), hfin) /\
    hfin !!! l = spec_theta X y lossfunc learning_rate nsteps.
Proof.
  intros Hfuel. exists (fresh (dom h)). eexists _, _.
  split; [apply not_elem_of_dom, is_fresh|].
  split; [apply list_of_run; exact Hfuel|].
  split; [rewrite length_map, length_seq; reflexivity|].
  split; [|split].
  - intros i p Hp. change (map ?f ?l) with (f <$> l) in Hp.
    rewrite list_lookup_fmap in Hp.
    destruct (seq 0 (S nsteps) !! i) as [j|] eqn:Hj; [|discriminate].
    apply lookup_seq in Hj as [-> _]. cbn in Hp. congruence.
  - unfold gradient_descent. rewrite consume_created by exact Hfuel.
    f_equal. f_equal. apply map_ext. intros j.
    apply lookup_total_insert_eq.
  - apply lookup_total_insert_eq.
Qed.

Lemma gradient_descent_shares_theta_witness :
  exists (l : nat) pairs hfin,
    (∅ : gmap nat (list Q)) !! l = None /\
    list_of toy_X toy_y hinge_lossfunc 2 (1 # 10)%Q 4 gradient_descent ∅
      = Some (pairs, hfin) /\
    length pairs = 3%nat /\
    (forall i p, pairs !! i = Some p ->
       p = (l, fst (hinge_lossfunc toy_X toy_y
                      (spec_theta toy_X toy_y hinge_lossfunc (1 # 10)%Q i)))) /\
    consume toy_X toy_y hinge_lossfunc 2 (1 # 10)%Q (fun h' _ => h' !!! l)
        4 gradient_descent ∅
      = Some (map (spec_theta toy_X toy_y hinge_lossfunc (1 # 10)%Q) (seq 0 3), hfin) /\
    hfin !!! l = spec_theta toy_X toy_y hinge_lossfunc (1 # 10)%Q 2.
Proof.
  apply (gradient_descent_shares_theta toy_X toy_y hinge_lossfunc 2 (1 # 10)%Q ∅ 4).
  lia.
Defined.

(** ** Tables and sums of reals *)
(** Tables: a list of length [k] is the table of its entries. *)
Section Tables.
Context {A B C : Type}.

Lemma table_nth (d : A) (l : list A) :
  l = map (fun i => nth i l d) (seq 0 (length l)).
Proof.
  induction l as [|x l IH]; [reflexivity|].
  cbn [length seq map nth]. f_equal.
  rewrite <- seq_shift, map_map. exact IH.
Qed.

Lemma zip_with_table (f : A -> B -> C) (g : nat -> A) (g' : nat -> B) s :
  zip_with f (map g s) (map g' s) = map (fun i => f (g i) (g' i)) s.
Proof. induction s as [|i s IH]; [reflexivity|]. cbn. f_equal. exact IH. Qed.

Lemma nth_table (g : nat -> A) d k j :
  (j < k)%nat -> nth j (map g (seq 0 k)) d = g j.
Proof.
  intros Hlt. rewrite (nth_indep _ d (g 0%nat)) by (rewrite length_map, length_seq; exact Hlt).
  rewrite (map_nth g (seq 0 k) 0%nat j), seq_nth by exact Hlt. reflexivity.
Qed.

Lemma replicate_table (x : A) k : replicate k x = map (fun _ => x) (seq 0 k).
Proof.
  induction k as [|k IH]; [reflexivity|].
  cbn [replicate seq map]. f_equal. rewrite <- seq_shift, map_map. exact IH.
Qed.
End Tables.

Ltac real_ops :=
  cbn [fzero fone fadd fsub fmul fdiv fneg flt fmax of_int Scalar_R].

Section RealSums.
Local Open Scope R_scope.

Lemma fold_left_Rplus (l : list R) a :
  fold_left Rplus l a = a + fold_right Rplus 0 l.
Proof.
  revert a. induction l as [|x l IH]; intros a; cbn [fold_left fold_right].
  - ring.
  - rewrite IH. ring.
Qed.

Lemma np_sum_table (f : nat -> R) k : np_sum (map f (seq 0 k)) = bigsum k f.
Proof. unfold np_sum, bigsum. real_ops. rewrite fold_left_Rplus. ring. Qed.

Lemma bigsum_ext k (f g : nat -> R) :
  (forall i, (i < k)%nat -> f i = g i) -> bigsum k f = bigsum k g.
Proof.
  intros Hfg. unfold bigsum. f_equal. apply map_ext_in.
  intros i Hi. apply in_seq in Hi. apply Hfg. lia.
Qed.

Lemma bigsum_S k (f : nat -> R) : bigsum (S k) f = bigsum k f + f k.
Proof.
  unfold bigsum. rewrite seq_S, map_app, fold_right_app. cbn [map fold_right Nat.add].
  generalize (map f (seq 0 k)) as l. intros l.
  induction l as [|x l IH]; cbn [fold_right]; [ring|]. rewrite IH. ring.
Qed.

Lemma bigsum_const k (c : R) : bigsum k (fun _ => c) = INR k * c.
Proof.
  induction k as [|k IH]; [unfold bigsum; cbn; ring|].
  rewrite bigsum_S, IH, S_INR. ring.
Qed.

Lemma bigsum_nonneg k (f : nat -> R) :
  (forall i, (i < k)%nat -> 0 <= f i) -> 0 <= bigsum k f.
Proof.
  induction k as [|k IH]; intros Hf; [unfold bigsum; cbn; lra|].
  rewrite bigsum_S. specialize (Hf k (Nat.lt_succ_diag_r k)) as Hk.
  assert (0 <= bigsum k f) by (apply IH; intros i Hi; apply Hf; lia). lra.
Qed.


Lemma vdot_table (f g : nat -> R) k :
  vdot (map f (seq 0 k)) (map g (seq 0 k)) = bigsum k (fun i => f i * g i).
Proof. unfold vdot, vmul. rewrite zip_with_table. real_ops. apply np_sum_table. Qed.

Lemma vdot_self (theta : list R) : vdot theta theta = norm2 theta.
Proof.
  unfold norm2. rewrite (table_nth 0 theta) at 1 2. apply vdot_table.
Qed.
End RealSums.

Section RealTheorems.
Local Open Scope R_scope.

Lemma rows_table (X : matrix R) :
  well_shaped X ->
  rows X = map (fun i => map (fun j => entry X i j) (seq 0 (ncols X)))
               (seq 0 (nrows X)).
Proof.
  intros [Hk Hn]. rewrite (table_nth [] (rows X)) at 1. rewrite Hk.
  apply map_ext_in. intros i Hi. apply in_seq in Hi.
  assert (length (nth i (rows X) []) = ncols X) as Hlen.
  { rewrite Forall_forall in Hn. apply Hn. apply list_elem_of_In, nth_In. lia. }
  rewrite (table_nth 0 (nth i (rows X) [])) at 1. rewrite Hlen. reflexivity.
Qed.

Lemma column_table (X : matrix R) j :
  length (rows X) = nrows X ->
  column (rows X) j = map (fun i => entry X i j) (seq 0 (nrows X)).
Proof.
  intros Hk. unfold column.
  rewrite (table_nth [] (rows X)) at 1. rewrite Hk, map_map. reflexivity.
Qed.

Lemma vector_table (v : list R) k :
  length v = k -> v = map (fun i => nth i v 0) (seq 0 k).
Proof. intros <-. apply table_nth. Qed.

Lemma margin_table (X : matrix R) (y theta : list R) :
  well_shaped X -> length y = nrows X -> length theta = ncols X ->
  vmul y (mat_dot X theta) = map (spec_margin X y theta) (seq 0 (nrows X)).
Proof.
  intros HX Hy Hth.
  unfold mat_dot. rewrite (rows_table X HX), map_map.
  rewrite (vector_table y _ Hy) at 1. unfold vmul. rewrite zip_with_table.
  apply map_ext. intros i. unfold spec_margin. real_ops. f_equal.
  rewrite (vector_table theta _ Hth) at 1. apply vdot_table.
Qed.

Lemma broadcast_column_table (X : matrix R) (y : list R) j :
  well_shaped X -> length y = nrows X -> (j < ncols X)%nat ->
  column (broadcast_mul y (rows X)) j =
  map (fun i => nth i y 0 * entry X i j) (seq 0 (nrows X)).
Proof.
  intros HX Hy Hj. unfold broadcast_mul, column.
  rewrite (rows_table X HX). rewrite (vector_table y _ Hy) at 1.
  rewrite zip_with_table, map_map. apply map_ext. intros i.
  rewrite map_map. real_ops. rewrite nth_table by exact Hj. reflexivity.
Qed.

Lemma INR_2 : INR 2 = 2.
Proof. cbn. ring. Qed.

(** C3: on a well-shaped [k]-by-[n] [X] with [k >= 1], [y] of length [k] and
    [theta] of length [n], [square_loss] returns the loss
    [mean((margin - 1)^2) + (reg_beta / 2) * ||theta||^2] and a gradient of
    length [n] whose [j]-th entry is
    [(2 / k) * sum_i (margin[i] - 1) * y[i] * X[i, j] + reg_beta * theta[j]].
    The labels need not be +1 or -1 for this. *)
Theorem square_loss_formula (X : matrix R) (y theta : list R) (reg_beta : R) :
  well_shaped X -> (1 <= nrows X)%nat ->
  length y = nrows X -> length theta = ncols X ->
  fst (square_loss X y theta reg_beta) = spec_square_value X y theta reg_beta /\
  length (snd (square_loss X y theta reg_beta)) = ncols X /\
  forall j, (j < ncols X)%nat ->
    nth j (snd (square_loss X y theta reg_beta)) 0
    = spec_square_grad X y theta reg_beta j.
Proof.
  intros HX Hk Hy Hth. unfold square_loss. cbn [fst snd].
  rewrite (margin_table X y theta HX Hy Hth), map_map.
  rewrite fill_entries_full by (unfold zeros_like, zeros; rewrite length_replicate; exact Hth).
  split; [|split].
  - unfold spec_square_value. rewrite vdot_table, vdot_self. real_ops.
    rewrite INR_2.
    rewrite (bigsum_ext _ _ (fun i => (spec_margin X y theta i - 1) ^ 2))
      by (intros; ring).
    unfold Rdiv. ring.
  - rewrite length_map, length_seq. reflexivity.
  - intros j Hj. rewrite nth_table by exact Hj.
    unfold spec_square_grad.
    rewrite (column_table X j (proj1 HX)).
    rewrite (vector_table y _ Hy) at 1. unfold vmul at 1.
    rewrite zip_with_table, vdot_table. real_ops. rewrite INR_2.
    unfold Rdiv. ring.
Qed.

Lemma Rltb_dec a b : Rltb a b = if Rlt_dec a b then true else false.
Proof. reflexivity. Qed.

(** C4: on a well-shaped [k]-by-[n] [X] with [k >= 1], [y] of length [k] and
    [theta] of length [n], [hinge_loss] returns the loss
    [mean(max(0, 1 - margin)) + (reg_beta / 2) * ||theta||^2] and a gradient
    of length [n] whose [j]-th entry is
    [(1 / k) * sum_i c_i + reg_beta * theta[j]], where [c_i] is
    [- y[i] * X[i, j]] when [margin[i] < 1] and 0 when [margin[i] >= 1]. *)
Theorem hinge_loss_formula (X : matrix R) (y theta : list R) (reg_beta : R) :
  well_shaped X -> (1 <= nrows X)%nat ->
  length y = nrows X -> length theta = ncols X ->
  fst (hinge_loss X y theta reg_beta) = spec_hinge_value X y theta reg_beta /\
  length (snd (hinge_loss X y theta reg_beta)) = ncols X /\
  (forall j, (j < ncols X)%nat ->
     nth j (snd (hinge_loss X y theta reg_beta)) 0
     = spec_hinge_grad X y theta reg_beta j) /\
  (forall i j,
     (spec_margin X y theta i < 1 ->
      spec_hinge_contribution X y theta i j = - (nth i y 0 * entry X i j)) /\
     (spec_margin X y theta i >= 1 ->
      spec_hinge_contribution X y theta i j = 0)).
Proof.
  intros HX Hk Hy Hth. unfold hinge_loss. cbn [fst snd].
  rewrite (margin_table X y theta HX Hy Hth), !map_map.
  rewrite fill_entries_full by (unfold zeros_like, zeros; rewrite length_replicate; exact Hth).
  split; [|split; [|split]].
  - unfold spec_hinge_value, zeros_like, zeros, np_maximum.
    rewrite length_map, length_seq, replicate_table, zip_with_table.
    rewrite np_sum_table, vdot_self. real_ops. rewrite INR_2.
    unfold Rdiv. ring.
  - rewrite length_map, length_seq. reflexivity.
  - intros j Hj. rewrite nth_table by exact Hj.
    unfold spec_hinge_grad.
    rewrite (broadcast_column_table X y j HX Hy Hj), map_map.
    unfold np_where0. rewrite zip_with_table, np_sum_table. real_ops.
    rewrite (bigsum_ext _ _ (fun i => spec_hinge_contribution X y theta i j)).
    + unfold Rdiv. ring.
    + intros i _. unfold spec_hinge_contribution. rewrite Rltb_dec.
      destruct (Rlt_dec _ _); reflexivity.
  - intros i j. unfold spec_hinge_contribution.
    destruct (Rlt_dec _ _); split; intros; try reflexivity; lra.
Qed.

Lemma norm2_nonneg theta : 0 <= norm2 theta.
Proof. apply bigsum_nonneg. intros i _. nra. Qed.





Lemma vdot_zeros_r (r : list R) n : vdot r (zeros n) = 0.
Proof.
  unfold vdot, vmul, zeros, np_sum. real_ops. rewrite fold_left_Rplus.
  revert n. induction r as [|x r IH]; intros [|n]; cbn; try lra.
  specialize (IH n). lra.
Qed.

Lemma vmul_zero_scores (M : list (list R)) n :
  forall y : list R, length y = length M ->
  vmul y (map (fun r => vdot r (zeros n)) M) = zeros (length M).
Proof.
  unfold vmul.
  induction M as [|r M IH]; intros [|a y] Hy; try discriminate; [reflexivity|].
  cbn [map zip_with length]. rewrite vdot_zeros_r, IH by (cbn in Hy; lia).
  unfold zeros. cbn [replicate]. real_ops. rewrite Rmult_0_r. reflexivity.
Qed.

Lemma margin_zeros (X : matrix R) (y : list R) :
  length (rows X) = nrows X -> length y = nrows X ->
  vmul y (mat_dot X (zeros (ncols X))) = zeros (nrows X).
Proof.
  intros Hk Hy. unfold mat_dot. rewrite <- Hk. apply vmul_zero_scores. lia.
Qed.

(** C10: on a well-shaped [X] with [k >= 1] rows and [y] of length [k], at the
    zero vector and with [reg_beta = 0], [square_loss] and [hinge_loss] both
    return the loss 1. *)
Theorem zero_theta_loss_is_one (X : matrix R) (y : list R) :
  well_shaped X -> (1 <= nrows X)%nat -> length y = nrows X ->
  fst (square_loss X y (zeros (ncols X)) 0) = 1 /\
  fst (hinge_loss X y (zeros (ncols X)) 0) = 1.
Proof.
  intros [Hk _] Hpos Hy.
  assert (INR (nrows X) <> 0) as Hnz by (apply not_0_INR; lia).
  unfold square_loss, hinge_loss. cbn [fst].
  rewrite (margin_zeros X y Hk Hy). unfold zeros_like, zeros.
  rewrite !replicate_table, !map_map, length_map, length_seq.
  unfold np_maximum. rewrite zip_with_table, np_sum_table, !vdot_table.
  real_ops. rewrite !bigsum_const, INR_2.
  replace (Rmax 0 (1 - 0)) with 1 by (rewrite Rmax_right; lra).
  split; field; exact Hnz.
Qed.




Lemma bigsum_plus k (f g : nat -> R) :
  bigsum k (fun i => f i + g i) = bigsum k f + bigsum k g.
Proof.
  induction k as [|k IH]; [unfold bigsum; cbn; ring|].
  rewrite !bigsum_S, IH. ring.
Qed.

Lemma bigsum_scale k c (f : nat -> R) :
  bigsum k (fun i => c * f i) = c * bigsum k f.
Proof.
  induction k as [|k IH]; [unfold bigsum; cbn; ring|].
  rewrite !bigsum_S, IH. ring.
Qed.

Lemma mean_table k (f : nat -> R) :
  mean (map f (seq 0 k)) = bigsum k f / INR k.
Proof.
  unfold mean. rewrite length_map, length_seq. f_equal.
  apply bigsum_ext. intros i Hi. apply nth_table. exact Hi.
Qed.

Lemma variance_table k (f : nat -> R) :
  variance (map f (seq 0 k))
  = bigsum k (fun i => (f i - bigsum k f / INR k) ^ 2) / INR k.
Proof. unfold variance. rewrite map_map, !mean_table. reflexivity. Qed.

Lemma variance_nonneg v : 0 <= variance v.
Proof.
  unfold variance, mean. rewrite length_map.
  destruct v as [|x v].
  - unfold bigsum. cbn. unfold Rdiv. rewrite Rmult_0_l. lra.
  - apply Rmult_le_pos.
    + apply bigsum_nonneg. intros i Hi.
      erewrite nth_indep by (rewrite length_map; exact Hi).
      rewrite (map_nth (fun x0 => (x0 - _) ^ 2) (x :: v) 0 i).
      apply pow2_ge_0.
    + left. apply Rinv_0_lt_compat. apply lt_0_INR. cbn. lia.
Qed.

(** Standardising a column of [k >= 1] numbers of nonzero variance. *)
Lemma standardize_table k (f : nat -> R) :
  (1 <= k)%nat ->
  let c := map f (seq 0 k) in
  variance c <> 0 ->
  let c' := map (fun i => (f i - mean c) / pstd c) (seq 0 k) in
  mean c' = 0 /\ pstd c' = 1.
Proof.
  intros Hk c Hvar c'.
  assert (INR k <> 0) as Hnz by (apply not_0_INR; lia).
  assert (0 < variance c) as Hpos by (pose proof (variance_nonneg c); lra).
  assert (0 < pstd c) as Hsd by (apply sqrt_lt_R0; exact Hpos).
  assert (pstd c * pstd c = variance c) as Hsq by (apply sqrt_sqrt; lra).
  assert (mean c = bigsum k f / INR k) as Hm by apply mean_table.
  assert (mean c' = 0) as Hmean.
  { unfold c'. rewrite mean_table.
    rewrite (bigsum_ext _ _ (fun i => / pstd c * f i + - (mean c / pstd c)))
      by (intros; field; lra).
    rewrite bigsum_plus, bigsum_scale, bigsum_const.
    rewrite Hm. field. split; [exact Hnz | lra]. }
  split; [exact Hmean|].
  unfold pstd at 1. rewrite Hmean. unfold c'. rewrite map_map, mean_table.
  rewrite (bigsum_ext _ _ (fun i => / variance c * (f i - mean c) ^ 2)).
  - rewrite bigsum_scale.
    replace (/ variance c * bigsum k (fun i => (f i - mean c) ^ 2) / INR k)
      with (/ variance c * variance c).
    + rewrite Rinv_l by exact Hvar. apply sqrt_1.
    + unfold c at 2. rewrite variance_table, <- Hm. unfold Rdiv. ring.
  - intros i _. rewrite <- Hsq. field. lra.
Qed.

Lemma mean_axis0_nth (X : matrix R) j :
  length (rows X) = nrows X -> (j < ncols X)%nat ->
  nth j (mean_axis0 X) 0 = mean (column (rows X) j).
Proof.
  intros Hk Hj. unfold mean_axis0. rewrite nth_table by exact Hj.
  rewrite (column_table X j Hk), np_sum_table, mean_table. reflexivity.
Qed.

Lemma std_axis0_nth (X : matrix R) j :
  length (rows X) = nrows X -> (j < ncols X)%nat ->
  nth j (std_axis0 X) 0 = pstd (column (rows X) j).
Proof.
  intros Hk Hj. unfold std_axis0. rewrite nth_table by exact Hj.
  rewrite (column_table X j Hk), map_map, !np_sum_table.
  unfold pstd. rewrite map_map, !mean_table. real_ops. f_equal. f_equal.
  apply bigsum_ext. intros i _. ring.
Qed.

Lemma normalized_rows_table (X : matrix R) :
  well_shaped X ->
  rows_div (rows_minus (rows X) (mean_axis0 X)) (std_axis0 X) =
  map (fun i => map (fun j => (entry X i j - nth j (mean_axis0 X) 0)
                              / nth j (std_axis0 X) 0) (seq 0 (ncols X)))
      (seq 0 (nrows X)).
Proof.
  intros HX. unfold rows_div, rows_minus.
  rewrite (rows_table X HX) at 1. rewrite !map_map.
  apply map_ext. intros i.
  rewrite (vector_table (mean_axis0 X) (ncols X)) at 1
    by (unfold mean_axis0; rewrite length_map, length_seq; reflexivity).
  rewrite zip_with_table.
  rewrite (vector_table (std_axis0 X) (ncols X)) at 1
    by (unfold std_axis0; rewrite length_map, length_seq; reflexivity).
  rewrite zip_with_table. reflexivity.
Qed.


Lemma sample_X_well_shaped : well_shaped sample_X.
Proof. split; [reflexivity | repeat constructor]. Qed.

Lemma square_loss_formula_witness :
  fst (square_loss sample_X sample_y sample_theta 1)
    = spec_square_value sample_X sample_y sample_theta 1 /\
  length (snd (square_loss sample_X sample_y sample_theta 1)) = ncols sample_X /\
  forall j, (j < ncols sample_X)%nat ->
    nth j (snd (square_loss sample_X sample_y sample_theta 1)) 0
    = spec_square_grad sample_X sample_y sample_theta 1 j.
Proof.
  apply (square_loss_formula sample_X sample_y sample_theta 1).
  - split; [reflexivity | repeat constructor].
  - simpl. lia.
  - reflexivity.
  - reflexivity.
Defined.

Lemma hinge_loss_formula_witness :
  fst (hinge_loss sample_X sample_y sample_theta 1)
    = spec_hinge_value sample_X sample_y sample_theta 1 /\
  length (snd (hinge_loss sample_X sample_y sample_theta 1)) = ncols sample_X /\
  (forall j, (j < ncols sample_X)%nat ->
     nth j (snd (hinge_loss sample_X sample_y sample_theta 1)) 0
     = spec_hinge_grad sample_X sample_y sample_theta 1 j) /\
  (forall i j,
     (spec_margin sample_X sample_y sample_theta i < 1 ->
      spec_hinge_contribution sample_X sample_y sample_theta i j
      = - (nth i sample_y 0 * entry sample_X i j)) /\
     (spec_margin sample_X sample_y sample_theta i >= 1 ->
      spec_hinge_contribution sample_X sample_y sample_theta i j = 0)).
Proof.
  apply (hinge_loss_formula sample_X sample_y sample_theta 1).
  - split; [reflexivity | repeat constructor].
  - simpl. lia.
  - reflexivity.
  - reflexivity.
Defined.


Lemma zero_theta_loss_is_one_witness :
  fst (square_loss sample_X sample_y (zeros (ncols sample_X)) 0) = 1 /\
  fst (hinge_loss sample_X sample_y (zeros (ncols sample_X)) 0) = 1.
Proof.
  apply (zero_theta_loss_is_one sample_X sample_y).
  - split; [reflexivity | repeat constructor].
  - simpl. lia.
  - reflexivity.
Defined.


Lemma sample_column_variance j :
  (j < ncols sample_column)%nat -> variance (column (rows sample_column) j) <> 0.
Proof.
  intros Hj. assert (j = 0%nat) as -> by (simpl in Hj; lia).
  unfold variance, mean, bigsum. simpl. lra.
Qed.


End RealTheorems.

(** * Further properties of the library *)

(** ** Shapes and the store *)

Section Augment.
Context {A : Type} `{Scalar A}.

Lemma hstack_ones (M : list (list A)) :
  hstack (ones_column (length M)) M = map (cons fone) M.
Proof.
  unfold hstack, ones_column.
  induction M as [|r M IH]; [reflexivity|].
  cbn [length replicate zip_with map app]. f_equal. exact IH.
Qed.

(** X1: on a well-shaped [(k, n)] array, [augment_1s_column] returns a
    well-shaped [(k, n + 1)] array whose first column is all ones and whose
    remaining columns are [X] itself ([X'[:, 1:] == X]). *)
Theorem augment_1s_column_spec (X : matrix A) :
  well_shaped X ->
  well_shaped (augment_1s_column X) /\
  nrows (augment_1s_column X) = nrows X /\
  ncols (augment_1s_column X) = S (ncols X) /\
  column (rows (augment_1s_column X)) 0 = replicate (nrows X) fone /\
  map (drop 1) (rows (augment_1s_column X)) = rows X.
Proof.
  intros [Hk Hn]. unfold augment_1s_column. cbn [rows nrows ncols].
  rewrite <- Hk, hstack_ones.
  split; [split|split; [|split; [|split]]]; try reflexivity.
  - apply length_map.
  - apply Forall_fmap. eapply Forall_impl; [exact Hn|].
    intros r Hr. cbn. f_equal. exact Hr.
  - unfold column. rewrite map_map. cbn [nth].
    clear. induction (rows X) as [|r M IH]; [reflexivity|].
    cbn. f_equal. exact IH.
  - rewrite map_map. cbn [drop]. apply map_id.
Qed.
End Augment.

Section Shapes.
Context {A : Type} `{Scalar A}.

Lemma square_loss_gradient_length (X : matrix A) (y theta : list A) (reg_beta : A) :
  length (snd (square_loss X y theta reg_beta)) = length theta.
Proof.
  unfold square_loss. cbn [snd]. rewrite fill_entries_length.
  apply length_replicate.
Qed.

Lemma hinge_loss_gradient_length (X : matrix A) (y theta : list A) (reg_beta : A) :
  length (snd (hinge_loss X y theta reg_beta)) = length theta.
Proof.
  unfold hinge_loss. cbn [snd]. rewrite fill_entries_length.
  apply length_replicate.
Qed.

Lemma spec_theta_length (X : matrix A) (y : list A) (lossfunc : lossfunc_t)
    (learning_rate : A) :
  (forall theta, length (snd (lossfunc X y theta)) = length theta) ->
  forall i, length (spec_theta X y lossfunc learning_rate i) = ncols X.
Proof.
  intros Hshape. induction i as [|i IH].
  - apply length_replicate.
  - cbn [spec_theta]. unfold descend. rewrite length_zip_with, Hshape, IH. lia.
Qed.

Lemma consume_fuel_mono {B} (X : matrix A) (y : list A) (lossfunc : lossfunc_t)
    (nsteps : nat) (learning_rate : A) (obs : gmap nat (list A) -> nat * A -> B) :
  forall fuel fuel' f h r,
    (fuel <= fuel')%nat ->
    consume X y lossfunc nsteps learning_rate obs fuel f h = Some r ->
    consume X y lossfunc nsteps learning_rate obs fuel' f h = Some r.
Proof.
  induction fuel as [|fuel IH]; intros fuel' f h r Hle Hrun; [discriminate|].
  destruct fuel' as [|fuel']; [lia|].
  cbn [consume] in *.
  destruct (next X y lossfunc nsteps learning_rate f h) as [[[p|] f1] h1];
    [|exact Hrun].
  destruct (consume X y lossfunc nsteps learning_rate obs fuel f1 h1)
    as [[out hfin]|] eqn:Hrec; [|discriminate].
  rewrite (IH fuel' f1 h1 (out, hfin)) by (lia || exact Hrec). exact Hrun.
Qed.

(** Whatever fuel a finished run had, its result is the one of [consume_created]. *)
Lemma consume_finished {B} (X : matrix A) (y : list A) (lossfunc : lossfunc_t)
    (nsteps : nat) (learning_rate : A) (obs : gmap nat (list A) -> nat * A -> B)
    fuel h r :
  consume X y lossfunc nsteps learning_rate obs fuel gradient_descent h = Some r ->
  r = (map (fun j => obs (<[fresh (dom h) := spec_theta X y lossfunc learning_rate j]> h)
                         (fresh (dom h),
                          fst (lossfunc X y (spec_theta X y lossfunc learning_rate j))))
           (seq 0 (S nsteps)),
       <[fresh (dom h) := spec_theta X y lossfunc learning_rate nsteps]> h).
Proof.
  intros Hrun.
  apply (consume_fuel_mono _ _ _ _ _ _ fuel (fuel + S (S nsteps))) in Hrun; [|lia].
  unfold gradient_descent in Hrun.
  rewrite consume_created in Hrun by lia. congruence.
Qed.

(** X3: with [square_loss] or [hinge_loss] as the loss function, a finished
    run yields [nsteps + 1] pairs and the theta of every one of them has
    [ncols X] entries. *)
Theorem gradient_descent_theta_shape (X : matrix A) (y : list A)
    (lossfunc : lossfunc_t) (nsteps : nat) (learning_rate : A)
    (h : gmap nat (list A)) (fuel : nat) out hfin :
  lossfunc = square_lossfunc \/ lossfunc = hinge_lossfunc ->
  snapshots X y lossfunc nsteps learning_rate fuel gradient_descent h
    = Some (out, hfin) ->
  length out = S nsteps /\
  Forall (fun p => length (fst p) = ncols X) out.
Proof.
  intros Hloss Hrun. apply consume_finished in Hrun.
  apply (f_equal fst) in Hrun. cbn [fst] in Hrun. subst out. split; [rewrite length_map, length_seq; reflexivity|].
  apply List.Forall_forall. intros p Hin.
  apply in_map_iff in Hin as (j & <- & _). cbn [fst].
  rewrite lookup_total_insert_eq. apply spec_theta_length.
  intros theta. destruct Hloss as [-> | ->].
  - apply square_loss_gradient_length.
  - apply hinge_loss_gradient_length.
Qed.

End Shapes.

Lemma gradient_descent_theta_shape_witness :
  exists out hfin,
    snapshots toy_X toy_y hinge_lossfunc 2 (1 # 10)%Q 4 gradient_descent ∅
      = Some (out, hfin) /\
    length out = 3%nat /\
    Forall (fun p => length (fst p) = ncols toy_X) out.
Proof.
  eexists _, _. split; [vm_compute; reflexivity|].
  refine (gradient_descent_theta_shape toy_X toy_y hinge_lossfunc 2 (1 # 10)%Q ∅ 4
            _ _ _ _).
  - right. reflexivity.
  - vm_compute. reflexivity.
Defined.

(** ** Predictors *)

Section RealExtras.
Local Open Scope R_scope.

(** *** Dot products *)

Lemma np_sum_cons (x : R) (l : list R) : np_sum (x :: l) = x + np_sum l.
Proof. unfold np_sum. real_ops. cbn [fold_left]. rewrite !fold_left_Rplus. ring. Qed.

Lemma vdot_cons (a b : R) (u v : list R) :
  vdot (a :: u) (b :: v) = a * b + vdot u v.
Proof. unfold vdot, vmul. cbn [zip_with]. real_ops. apply np_sum_cons. Qed.

Lemma vdot_nil_l (v : list R) : vdot [] v = 0.
Proof. reflexivity. Qed.

Lemma vdot_nil_r (u : list R) : vdot u [] = 0.
Proof. destruct u; reflexivity. Qed.

Lemma vdot_scale_r (c : R) (u v : list R) :
  vdot u (map (Rmult c) v) = c * vdot u v.
Proof.
  revert v. induction u as [|a u IH]; intros [|b v]; cbn [map];
    rewrite ?vdot_nil_l, ?vdot_nil_r, ?vdot_cons, ?IH; ring.
Qed.

(** *** The bias column *)

(** X5: with the column of ones in front, the first parameter is a bias:
    [augment_1s_column(X).dot([b; w])] is [b + X.dot(w)] row by row. *)
Theorem augment_dot_bias (X : matrix R) (b : R) (w : list R) :
  length (rows X) = nrows X ->
  mat_dot (augment_1s_column X) (b :: w) = map (Rplus b) (mat_dot X w).
Proof.
  intros Hk. unfold mat_dot, augment_1s_column. cbn [rows].
  rewrite <- Hk, hstack_ones, !map_map.
  apply map_ext. intros r. rewrite vdot_cons. real_ops. ring.
Qed.

(** *** Signs *)

Lemma sign_pos s : 0 < s -> sign s = 1.
Proof.
  intros Hs. unfold sign. real_ops. unfold Rltb.
  destruct (Rlt_dec s 0); [lra|]. destruct (Rlt_dec 0 s); [reflexivity|lra].
Qed.

Lemma sign_neg s : s < 0 -> sign s = -1.
Proof.
  intros Hs. unfold sign. real_ops. unfold Rltb.
  destruct (Rlt_dec s 0); [ring|lra].
Qed.

Lemma sign_zero : sign 0 = 0.
Proof.
  unfold sign. real_ops. unfold Rltb.
  destruct (Rlt_dec 0 0); [lra|reflexivity].
Qed.

Lemma sign_cases s :
  (0 < s /\ sign s = 1) \/ (s < 0 /\ sign s = -1) \/ (s = 0 /\ sign s = 0).
Proof.
  destruct (Rtotal_order s 0) as [Hlt|[->|Hgt]].
  - right. left. split; [exact Hlt | apply sign_neg; exact Hlt].
  - right. right. split; [reflexivity | apply sign_zero].
  - left. split; [lra | apply sign_pos; lra].
Qed.

Lemma sign_scale c s : 0 < c -> sign (c * s) = sign s.
Proof.
  intros Hc. destruct (sign_cases s) as [[Hs ->]|[[Hs ->]| [-> ->]]].
  - apply sign_pos. nra.
  - apply sign_neg. nra.
  - rewrite Rmult_0_r. apply sign_zero.
Qed.

Lemma nth_map_in {B C} (f : B -> C) (l : list B) i d d' :
  (i < length l)%nat -> nth i (map f l) d' = f (nth i l d).
Proof.
  intros Hi. rewrite (nth_indep _ d' (f d)) by (rewrite length_map; exact Hi).
  apply map_nth.
Qed.

(** X7: multiplying [theta] by a positive number does not change any
    prediction of [predict_binary]. *)
Theorem predict_binary_scale_invariant (X : matrix R) (theta : list R) (c : R) :
  0 < c ->
  predict_binary X (map (Rmult c) theta) = predict_binary X theta.
Proof.
  intros Hc. unfold predict_binary, mat_dot. rewrite !map_map.
  apply map_ext. intros r. rewrite vdot_scale_r. apply sign_scale. exact Hc.
Qed.

(** *** The logistic function *)

Lemma sigmoid1_zero : sigmoid1 0 = 1 / 2.
Proof. unfold sigmoid1. rewrite Ropp_0, exp_0. lra. Qed.

Lemma sigmoid1_range z : 0 < sigmoid1 z < 1.
Proof.
  unfold sigmoid1. pose proof (exp_pos (- z)) as He. split.
  - apply Rdiv_lt_0_compat; lra.
  - apply (Rmult_lt_reg_r (1 + exp (- z))); [lra|]. field_simplify; lra.
Qed.

Lemma sigmoid1_lt z1 z2 : z1 < z2 -> sigmoid1 z1 < sigmoid1 z2.
Proof.
  intros Hlt. unfold sigmoid1.
  pose proof (exp_pos (- z1)). pose proof (exp_pos (- z2)).
  assert (exp (- z2) < exp (- z1)) by (apply exp_increasing; lra).
  unfold Rdiv. rewrite !Rmult_1_l. apply Rinv_lt_contravar; nra.
Qed.

Lemma sigmoid1_half z : 1 / 2 < sigmoid1 z <-> 0 < z.
Proof.
  rewrite <- sigmoid1_zero. split.
  - intros Hlt. destruct (Rtotal_order z 0) as [Hz|[->|Hz]]; [|lra|exact Hz].
    apply sigmoid1_lt in Hz. lra.
  - apply sigmoid1_lt.
Qed.

(** X8: in exact arithmetic, [sigmoid(-z) = 1 - sigmoid(z)] for every real
    [z]. *)
Theorem sigmoid_symmetry z : sigmoid1 (- z) = 1 - sigmoid1 z.
Proof.
  unfold sigmoid1. rewrite Ropp_involutive, (exp_Ropp z).
  pose proof (exp_pos z). field. split; nra.
Qed.

(** X9: [predict_logistic_probability] returns one entry per row of [X]; in
    exact arithmetic each entry lies strictly between 0 and 1 and exceeds 1/2
    exactly when [predict_binary] classifies that row as +1. *)
Theorem predict_logistic_probability_spec (X : matrix R) (theta : list R) :
  length (predict_logistic_probability X theta) = length (rows X) /\
  forall i, (i < length (rows X))%nat ->
    let p := nth i (predict_logistic_probability X theta) 0 in
    0 < p < 1 /\
    (1 / 2 < p <-> nth i (predict_binary X theta) 0 = 1).
Proof.
  unfold predict_logistic_probability, predict_binary, sigmoid. split.
  - unfold mat_dot. rewrite !length_map. reflexivity.
  - intros i Hi. cbn zeta.
    assert (i < length (mat_dot X theta))%nat as Hi'
      by (unfold mat_dot; rewrite length_map; exact Hi).
    rewrite (nth_map_in sigmoid1 _ i 0 0 Hi'), (nth_map_in sign _ i 0 0 Hi').
    split; [apply sigmoid1_range|].
    rewrite sigmoid1_half.
    destruct (sign_cases (nth i (mat_dot X theta) 0)) as [[Hs ->]|[[Hs ->]|[Hs ->]]];
      split; intros; lra.
Qed.
End RealExtras.

(** ** Loss functions *)

Section LossExtras.
Local Open Scope R_scope.

Lemma div_nonneg a b : 0 <= a -> 0 < b -> 0 <= a / b.
Proof.
  intros Ha Hb. apply Rmult_le_pos; [exact Ha|].
  left. apply Rinv_0_lt_compat. exact Hb.
Qed.

Lemma np_sum_nonneg (l : list R) : Forall (fun x => 0 <= x) l -> 0 <= np_sum l.
Proof.
  induction 1 as [|x l Hx _ IH]; [unfold np_sum; cbn; real_ops; lra|].
  rewrite np_sum_cons. lra.
Qed.

Lemma np_maximum_zeros_nonneg (v : list R) n :
  Forall (fun x => 0 <= x) (np_maximum (zeros n) v).
Proof.
  unfold np_maximum, zeros. revert v.
  induction n as [|n IH]; intros [|x v]; cbn [replicate zip_with];
    try constructor; [real_ops; apply Rmax_l | apply IH].
Qed.

(** X10: for [k >= 1] and [reg_beta >= 0] the loss returned by [square_loss]
    and by [hinge_loss] is never negative, whatever [y] and [theta] are. *)
Theorem loss_nonneg (X : matrix R) (y theta : list R) (reg_beta : R) :
  (1 <= nrows X)%nat -> 0 <= reg_beta ->
  0 <= fst (square_loss X y theta reg_beta) /\
  0 <= fst (hinge_loss X y theta reg_beta).
Proof.
  intros Hk Hbeta.
  assert (0 < INR (nrows X)) as Hpos by (apply lt_0_INR; lia).
  assert (0 <= vdot theta theta * reg_beta / 2) as Hreg.
  { rewrite vdot_self. pose proof (norm2_nonneg theta). nra. }
  unfold square_loss, hinge_loss. cbn [fst]. real_ops. rewrite INR_2.
  split.
  - rewrite (vdot_self (map _ _)).
    pose proof (norm2_nonneg (map (fun m => m - 1) (vmul y (mat_dot X theta)))) as Hn.
    assert (0 <= norm2 (map (fun m => m - 1) (vmul y (mat_dot X theta)))
                 / INR (nrows X)) by (apply div_nonneg; assumption).
    lra.
  - pose proof (np_sum_nonneg _
        (np_maximum_zeros_nonneg (map (fun m => 1 - m) (vmul y (mat_dot X theta)))
           (length (vmul y (mat_dot X theta))))) as Hn.
    unfold zeros_like.
    assert (0 <= np_sum (np_maximum (zeros (length (vmul y (mat_dot X theta))))
                           (map (fun m => 1 - m) (vmul y (mat_dot X theta))))
                 / INR (nrows X)) by (apply div_nonneg; assumption).
    lra.
Qed.







End LossExtras.

(** ** Normalization *)

Section NormalizeExtras.
Local Open Scope R_scope.

Lemma feature_normalize_shape (X : matrix R) :
  well_shaped X -> well_shaped (fst (fst (feature_normalize X))).
Proof.
  intros HX. unfold feature_normalize. cbn [fst]. split; cbn [rows nrows ncols].
  - rewrite (normalized_rows_table X HX), length_map, length_seq. reflexivity.
  - rewrite (normalized_rows_table X HX). apply List.Forall_forall. intros r Hin.
    apply in_map_iff in Hin as (i & <- & _).
    rewrite length_map, length_seq. reflexivity.
Qed.

Lemma normalized_column (X : matrix R) j :
  well_shaped X -> (j < ncols X)%nat ->
  column (rows (fst (fst (feature_normalize X)))) j =
  map (fun i => (entry X i j - mean (column (rows X) j)) / pstd (column (rows X) j))
      (seq 0 (nrows X)).
Proof.
  intros HX Hj. unfold feature_normalize. cbn [fst rows].
  unfold column at 1. rewrite (normalized_rows_table X HX), map_map.
  apply map_ext. intros i. rewrite nth_table by exact Hj.
  rewrite (mean_axis0_nth X j (proj1 HX) Hj), (std_axis0_nth X j (proj1 HX) Hj).
  reflexivity.
Qed.

Lemma normalized_column_standard (X : matrix R) j :
  well_shaped X -> (1 <= nrows X)%nat -> (j < ncols X)%nat ->
  variance (column (rows X) j) <> 0 ->
  mean (column (rows (fst (fst (feature_normalize X)))) j) = 0 /\
  pstd (column (rows (fst (fst (feature_normalize X)))) j) = 1.
Proof.
  intros HX Hk Hj Hvar. rewrite (normalized_column X j HX Hj).
  rewrite (column_table X j (proj1 HX)) in *.
  apply (standardize_table (nrows X) (fun i => entry X i j) Hk Hvar).
Qed.

Lemma normalized_entry (X : matrix R) i j :
  well_shaped X -> (i < nrows X)%nat -> (j < ncols X)%nat ->
  entry (fst (fst (feature_normalize X))) i j
  = (entry X i j - nth j (snd (fst (feature_normalize X))) 0)
    / nth j (snd (feature_normalize X)) 0.
Proof.
  intros HX Hi Hj. unfold feature_normalize. cbn [fst snd].
  unfold entry at 1. cbn [rows]. rewrite (normalized_rows_table X HX).
  rewrite (nth_indep _ [] (map (fun _ => 0) (seq 0 (ncols X))))
    by (rewrite length_map, length_seq; exact Hi).
  rewrite (nth_table _ _ _ i Hi), (nth_table _ _ _ j Hj). reflexivity.
Qed.

(** X14: the statistics returned by [feature_normalize] undo it: for a column
    of nonzero variance, [X_norm[i, j] * sigma[j] + mu[j] = X[i, j]]. *)
Theorem feature_normalize_round_trip (X : matrix R) i j :
  well_shaped X -> (i < nrows X)%nat -> (j < ncols X)%nat ->
  variance (column (rows X) j) <> 0 ->
  let '(X_norm, mu, sigma) := feature_normalize X in
  entry X_norm i j * nth j sigma 0 + nth j mu 0 = entry X i j.
Proof.
  intros HX Hi Hj Hvar.
  pose proof (normalized_entry X i j HX Hi Hj) as Hentry.
  assert (nth j (snd (feature_normalize X)) 0 <> 0) as Hsigma.
  { unfold feature_normalize. cbn [snd].
    rewrite (std_axis0_nth X j (proj1 HX) Hj).
    pose proof (variance_nonneg (column (rows X) j)).
    assert (0 < pstd (column (rows X) j)) by (apply sqrt_lt_R0; unfold variance in *; lra).
    lra. }
  unfold feature_normalize in *. cbn [fst snd] in *.
  rewrite Hentry. field. exact Hsigma.
Qed.

(** X15: normalizing an already normalized matrix changes nothing: on the
    output of [feature_normalize] (columns of nonzero variance),
    [feature_normalize] returns the same matrix with [mu = 0] and
    [sigma = 1]. *)
Theorem feature_normalize_idempotent (X : matrix R) :
  well_shaped X -> (1 <= nrows X)%nat ->
  (forall j, (j < ncols X)%nat -> variance (column (rows X) j) <> 0) ->
  let X_norm := fst (fst (feature_normalize X)) in
  feature_normalize X_norm
  = (X_norm, replicate (ncols X) 0, replicate (ncols X) 1).
Proof.
  intros HX Hk Hvar X_norm.
  pose proof (feature_normalize_shape X HX) as HXn. fold X_norm in HXn.
  assert (nrows X_norm = nrows X) as Hrows by reflexivity.
  assert (ncols X_norm = ncols X) as Hcols by reflexivity.
  assert (mean_axis0 X_norm = replicate (ncols X) 0) as Hmu.
  { rewrite replicate_table.
    rewrite (vector_table (mean_axis0 X_norm) (ncols X))
      by (unfold mean_axis0; rewrite length_map, length_seq; exact Hcols).
    apply map_ext_in. intros j Hj. apply in_seq in Hj.
    rewrite (mean_axis0_nth X_norm j (proj1 HXn)) by lia.
    apply (normalized_column_standard X j HX Hk); [lia | apply Hvar; lia]. }
  assert (std_axis0 X_norm = replicate (ncols X) 1) as Hsigma.
  { rewrite replicate_table.
    rewrite (vector_table (std_axis0 X_norm) (ncols X))
      by (unfold std_axis0; rewrite length_map, length_seq; exact Hcols).
    apply map_ext_in. intros j Hj. apply in_seq in Hj.
    rewrite (std_axis0_nth X_norm j (proj1 HXn)) by lia.
    apply (normalized_column_standard X j HX Hk); [lia | apply Hvar; lia]. }
  assert (map (fun i => map (fun j => (entry X_norm i j - nth j (replicate (ncols X) 0) 0)
                                      / nth j (replicate (ncols X) 1) 0)
                           (seq 0 (ncols X)))
              (seq 0 (nrows X))
          = rows X_norm) as Hr.
  { symmetry. etransitivity; [apply (rows_table X_norm HXn)|].
    rewrite Hrows, Hcols.
    apply map_ext. intros i. apply map_ext_in. intros j Hj. apply in_seq in Hj.
    rewrite !replicate_table, !nth_table by lia. field. }
  unfold feature_normalize at 1.
  rewrite (normalized_rows_table X_norm HXn), Hmu, Hsigma, Hrows, Hcols, Hr.
  reflexivity.
Qed.

(** X16: in exact arithmetic, for a column whose entries all equal [c],
    [feature_normalize] computes [mu[j] = c] and [sigma[j] = 0]. *)
Theorem feature_normalize_constant_column (X : matrix R) j c :
  well_shaped X -> (1 <= nrows X)%nat -> (j < ncols X)%nat ->
  (forall i, (i < nrows X)%nat -> entry X i j = c) ->
  nth j (snd (fst (feature_normalize X))) 0 = c /\
  nth j (snd (feature_normalize X)) 0 = 0.
Proof.
  intros HX Hk Hj Hconst.
  assert (INR (nrows X) <> 0) as Hnz by (apply not_0_INR; lia).
  unfold feature_normalize. cbn [fst snd].
  rewrite (mean_axis0_nth X j (proj1 HX) Hj), (std_axis0_nth X j (proj1 HX) Hj).
  rewrite (column_table X j (proj1 HX)).
  rewrite (map_ext_in _ (fun _ => c))
    by (intros i Hi; apply in_seq in Hi; apply Hconst; lia).
  assert (mean (map (fun _ : nat => c) (seq 0 (nrows X))) = c) as Hmean.
  { rewrite mean_table, bigsum_const. field. exact Hnz. }
  split; [exact Hmean|].
  unfold pstd. rewrite Hmean, map_map, mean_table.
  rewrite (bigsum_ext _ _ (fun _ => 0)) by (intros; ring).
  rewrite bigsum_const.
  replace (INR (nrows X) * 0 / INR (nrows X)) with 0 by (field; exact Hnz).
  apply sqrt_0.
Qed.
End NormalizeExtras.

(** ** Gradients *)

Section Subgradient.
Local Open Scope R_scope.

Lemma bigsum_0 (f : nat -> R) : bigsum 0 f = 0.
Proof. reflexivity. Qed.

Lemma bigsum_le k (f g : nat -> R) :
  (forall i, (i < k)%nat -> f i <= g i) -> bigsum k f <= bigsum k g.
Proof.
  induction k as [|k IH]; intros Hfg; [rewrite !bigsum_0; lra|].
  rewrite !bigsum_S.
  assert (bigsum k f <= bigsum k g) by (apply IH; intros i Hi; apply Hfg; lia).
  specialize (Hfg k (Nat.lt_succ_diag_r k)). lra.
Qed.

Lemma bigsum_swap k n (f : nat -> nat -> R) :
  bigsum k (fun i => bigsum n (fun j => f i j))
  = bigsum n (fun j => bigsum k (fun i => f i j)).
Proof.
  induction k as [|k IH].
  - rewrite bigsum_0. symmetry.
    rewrite (bigsum_ext _ _ (fun _ => 0)) by (intros; apply bigsum_0).
    rewrite bigsum_const. ring.
  - rewrite bigsum_S, IH, <- bigsum_plus. apply bigsum_ext.
    intros j _. rewrite bigsum_S. reflexivity.
Qed.

Lemma vmul_table_r (g : nat -> R) (v : list R) k :
  length v = k ->
  vmul (map g (seq 0 k)) v = map (fun i => g i * nth i v 0) (seq 0 k).
Proof.
  intros Hv. unfold vmul.
  transitivity (zip_with Rmult (map g (seq 0 k)) (map (fun i => nth i v 0) (seq 0 k))).
  - f_equal. apply vector_table. exact Hv.
  - apply zip_with_table.
Qed.

Lemma vdot_table_r (g : nat -> R) (v : list R) k :
  length v = k ->
  vdot (map g (seq 0 k)) v = bigsum k (fun i => g i * nth i v 0).
Proof.
  intros Hv. unfold vdot. rewrite (vmul_table_r g v k Hv). apply np_sum_table.
Qed.

(** [theta + delta] on two column arrays. *)
Lemma nth_sum (theta delta : list R) n j :
  length theta = n -> length delta = n -> (j < n)%nat ->
  nth j (zip_with Rplus theta delta) 0 = nth j theta 0 + nth j delta 0.
Proof.
  intros Ht Hd Hj.
  rewrite (vector_table theta n Ht) at 1. rewrite (vector_table delta n Hd) at 1.
  rewrite zip_with_table, nth_table by exact Hj. reflexivity.
Qed.

(** The score of sample [i] along a direction [delta]. *)
Lemma spec_margin_sum (X : matrix R) (y theta delta : list R) i :
  length theta = ncols X -> length delta = ncols X ->
  spec_margin X y (zip_with Rplus theta delta) i
  = spec_margin X y theta i + spec_margin X y delta i.
Proof.
  intros Ht Hd. unfold spec_margin.
  rewrite (bigsum_ext _ _ (fun j => entry X i j * nth j theta 0
                                    + entry X i j * nth j delta 0)).
  - rewrite bigsum_plus. ring.
  - intros j Hj. rewrite (nth_sum theta delta (ncols X) j Ht Hd Hj). ring.
Qed.

Lemma norm2_sum_ge (theta delta : list R) n :
  length theta = n -> length delta = n ->
  norm2 theta + 2 * bigsum n (fun j => nth j theta 0 * nth j delta 0)
  <= norm2 (zip_with Rplus theta delta).
Proof.
  intros Ht Hd. unfold norm2. rewrite length_zip_with, Ht, Hd, Nat.min_id.
  rewrite <- bigsum_scale, <- bigsum_plus. apply bigsum_le.
  intros j Hj. rewrite (nth_sum theta delta n j Ht Hd Hj). nra.
Qed.

(** The inner product of a gradient of the shape both losses return with a
    direction: sums over samples and over features change places. *)
Lemma gradient_dot (X : matrix R) (y theta delta : list R) (c : nat -> R)
    (a reg_beta : R) :
  length delta = ncols X ->
  vdot (map (fun j => a * bigsum (nrows X) (fun i => c i * (nth i y 0 * entry X i j))
                      + reg_beta * nth j theta 0) (seq 0 (ncols X))) delta
  = a * bigsum (nrows X) (fun i => c i * spec_margin X y delta i)
    + reg_beta * bigsum (ncols X) (fun j => nth j theta 0 * nth j delta 0).
Proof.
  intros Hd. rewrite (vdot_table_r _ delta _ Hd).
  rewrite (bigsum_ext _ _
    (fun j => a * bigsum (nrows X)
                    (fun i => c i * (nth i y 0 * entry X i j) * nth j delta 0)
              + reg_beta * (nth j theta 0 * nth j delta 0))).
  - rewrite bigsum_plus, !bigsum_scale. f_equal. f_equal.
    rewrite <- bigsum_swap. apply bigsum_ext. intros i _.
    unfold spec_margin. rewrite <- !bigsum_scale. apply bigsum_ext.
    intros j _. ring.
  - intros j _. rewrite Rmult_plus_distr_r. f_equal; [|ring].
    rewrite Rmult_assoc. f_equal. rewrite Rmult_comm, <- bigsum_scale.
    apply bigsum_ext. intros i _. ring.
Qed.

(** X17: the gradient returned by [square_loss] supports the loss from below:
    for [reg_beta >= 0] and every direction [delta],
    [loss(theta) + dtheta(theta) . delta <= loss(theta + delta)]. *)
Theorem square_loss_gradient_inequality (X : matrix R) (y theta delta : list R)
    (reg_beta : R) :
  well_shaped X -> (1 <= nrows X)%nat -> length y = nrows X ->
  length theta = ncols X -> length delta = ncols X -> 0 <= reg_beta ->
  fst (square_loss X y theta reg_beta)
    + vdot (snd (square_loss X y theta reg_beta)) delta
  <= fst (square_loss X y (zip_with Rplus theta delta) reg_beta).
Proof.
  intros HX Hk Hy Ht Hd Hbeta.
  assert (length (zip_with Rplus theta delta) = ncols X) as Hsum
    by (rewrite length_zip_with; lia).
  assert (0 < INR (nrows X)) as Hpos by (apply lt_0_INR; lia).
  unfold square_loss. cbn [fst snd].
  rewrite (margin_table X y theta HX Hy Ht), (margin_table X y _ HX Hy Hsum).
  rewrite !map_map, !vdot_table, !vdot_self.
  rewrite fill_entries_full
    by (unfold zeros_like, zeros; rewrite length_replicate; exact Ht).
  rewrite (map_ext_in _
    (fun j => 2 / INR (nrows X)
              * bigsum (nrows X) (fun i => (spec_margin X y theta i - 1)
                                           * (nth i y 0 * entry X i j))
              + reg_beta * nth j theta 0)).
  2:{ intros j _. rewrite (column_table X j (proj1 HX)).
      rewrite (vmul_table_r _ y _ Hy), vdot_table. real_ops. rewrite INR_2.
      rewrite (bigsum_ext _ _ (fun i => (spec_margin X y theta i - 1)
                                        * (nth i y 0 * entry X i j)))
        by (intros; ring).
      unfold Rdiv. ring. }
  rewrite (gradient_dot X y theta delta _ _ _ Hd). real_ops. rewrite INR_2.
  pose proof (norm2_sum_ge theta delta (ncols X) Ht Hd) as Hnorm.
  assert (bigsum (nrows X) (fun i => (spec_margin X y theta i - 1)
                                     * (spec_margin X y theta i - 1))
          + 2 * bigsum (nrows X) (fun i => (spec_margin X y theta i - 1)
                                           * spec_margin X y delta i)
          <= bigsum (nrows X)
               (fun i => (spec_margin X y (zip_with Rplus theta delta) i - 1)
                         * (spec_margin X y (zip_with Rplus theta delta) i - 1)))
    as Hsq.
  { rewrite <- bigsum_scale, <- bigsum_plus. apply bigsum_le. intros i _.
    rewrite (spec_margin_sum X y theta delta i Ht Hd). nra. }
  set (S0 := bigsum _ _) in *. set (S1 := bigsum _ _) in *.
  set (S2 := bigsum (nrows X) _) in *. set (T := bigsum (ncols X) _) in *.
  apply (Rmult_le_compat_r (/ INR (nrows X))) in Hsq;
    [|left; apply Rinv_0_lt_compat; exact Hpos].
  unfold Rdiv. nra.
Qed.
Lemma hinge_sample_inequality m a :
  Rmax 0 (1 - m) + (if Rlt_dec m 1 then -1 else 0) * a <= Rmax 0 (1 - (m + a)).
Proof.
  destruct (Rlt_dec m 1) as [Hlt|Hge].
  - rewrite (Rmax_right 0 (1 - m)) by lra.
    pose proof (Rmax_r 0 (1 - (m + a))). lra.
  - rewrite (Rmax_left 0 (1 - m)) by lra.
    pose proof (Rmax_l 0 (1 - (m + a))). lra.
Qed.

(** X18: in exact arithmetic the vector returned by [hinge_loss] is a
    subgradient of the loss, also where a margin equals 1: for
    [reg_beta >= 0] and every direction [delta],
    [loss(theta) + dtheta(theta) . delta <= loss(theta + delta)]. *)
Theorem hinge_loss_subgradient_inequality (X : matrix R) (y theta delta : list R)
    (reg_beta : R) :
  well_shaped X -> (1 <= nrows X)%nat -> length y = nrows X ->
  length theta = ncols X -> length delta = ncols X -> 0 <= reg_beta ->
  fst (hinge_loss X y theta reg_beta)
    + vdot (snd (hinge_loss X y theta reg_beta)) delta
  <= fst (hinge_loss X y (zip_with Rplus theta delta) reg_beta).
Proof.
  intros HX Hk Hy Ht Hd Hbeta.
  assert (length (zip_with Rplus theta delta) = ncols X) as Hsum
    by (rewrite length_zip_with; lia).
  assert (0 < INR (nrows X)) as Hpos by (apply lt_0_INR; lia).
  unfold hinge_loss. cbn [fst snd].
  rewrite (margin_table X y theta HX Hy Ht), (margin_table X y _ HX Hy Hsum).
  rewrite !map_map, !vdot_self.
  unfold zeros_like at 1 3. unfold zeros, np_maximum.
  rewrite !length_map, !length_seq, !replicate_table, !zip_with_table, !np_sum_table.
  rewrite fill_entries_full
    by (unfold zeros_like, zeros; rewrite length_replicate; exact Ht).
  rewrite (map_ext_in _
    (fun j => 1 / INR (nrows X)
              * bigsum (nrows X)
                  (fun i => (if Rlt_dec (spec_margin X y theta i) 1 then -1 else 0)
                            * (nth i y 0 * entry X i j))
              + reg_beta * nth j theta 0)).
  2:{ intros j Hj. apply in_seq in Hj.
      rewrite (broadcast_column_table X y j HX Hy) by lia.
      rewrite map_map. unfold np_where0. rewrite zip_with_table, np_sum_table.
      real_ops.
      rewrite (bigsum_ext _ _
        (fun i => (if Rlt_dec (spec_margin X y theta i) 1 then -1 else 0)
                  * (nth i y 0 * entry X i j))).
      - unfold Rdiv. ring.
      - intros i _. unfold Rltb. destruct (Rlt_dec _ _); ring. }
  rewrite (gradient_dot X y theta delta _ _ _ Hd). real_ops. rewrite INR_2.
  pose proof (norm2_sum_ge theta delta (ncols X) Ht Hd) as Hnorm.
  assert (bigsum (nrows X) (fun i => Rmax 0 (1 - spec_margin X y theta i))
          + bigsum (nrows X)
              (fun i => (if Rlt_dec (spec_margin X y theta i) 1 then -1 else 0)
                        * spec_margin X y delta i)
          <= bigsum (nrows X)
               (fun i => Rmax 0 (1 - spec_margin X y (zip_with Rplus theta delta) i)))
    as Hsq.
  { rewrite <- bigsum_plus. apply bigsum_le. intros i _.
    rewrite (spec_margin_sum X y theta delta i Ht Hd).
    apply hinge_sample_inequality. }
  set (S0 := bigsum _ _) in *. set (S1 := bigsum _ _) in *.
  set (S2 := bigsum (nrows X) _) in *. set (T := bigsum (ncols X) _) in *.
  apply (Rmult_le_compat_r (/ INR (nrows X))) in Hsq;
    [|left; apply Rinv_0_lt_compat; exact Hpos].
  unfold Rdiv. nra.
Qed.
End Subgradient.

(** ** Instances *)

Section Witnesses.
Local Open Scope R_scope.

Lemma augment_1s_column_spec_witness :
  well_shaped (augment_1s_column sample_X) /\
  nrows (augment_1s_column sample_X) = nrows sample_X /\
  ncols (augment_1s_column sample_X) = S (ncols sample_X) /\
  column (rows (augment_1s_column sample_X)) 0 = replicate (nrows sample_X) 1 /\
  map (drop 1) (rows (augment_1s_column sample_X)) = rows sample_X.
Proof.
  refine (augment_1s_column_spec sample_X _).
  split; [reflexivity | repeat constructor].
Defined.

Lemma augment_dot_bias_witness :
  mat_dot (augment_1s_column sample_X) (3 :: sample_theta)
  = map (Rplus 3) (mat_dot sample_X sample_theta).
Proof. apply (augment_dot_bias sample_X 3 sample_theta). reflexivity. Defined.

Lemma predict_binary_scale_invariant_witness :
  predict_binary sample_X (map (Rmult 2) sample_theta)
  = predict_binary sample_X sample_theta.
Proof. apply (predict_binary_scale_invariant sample_X sample_theta 2). lra. Defined.

Lemma predict_logistic_probability_spec_witness :
  let p := nth 0 (predict_logistic_probability sample_X sample_theta) 0 in
  0 < p < 1 /\
  (1 / 2 < p <-> nth 0 (predict_binary sample_X sample_theta) 0 = 1).
Proof.
  apply (proj2 (predict_logistic_probability_spec sample_X sample_theta) 0%nat).
  simpl. lia.
Defined.

Lemma loss_nonneg_witness :
  0 <= fst (square_loss sample_X sample_y sample_theta 1) /\
  0 <= fst (hinge_loss sample_X sample_y sample_theta 1).
Proof.
  apply (loss_nonneg sample_X sample_y sample_theta 1).
  - simpl. lia.
  - lra.
Defined.








Lemma feature_normalize_round_trip_witness :
  let '(X_norm, mu, sigma) := feature_normalize sample_column in
  entry X_norm 1 0 * nth 0 sigma 0 + nth 0 mu 0 = entry sample_column 1 0.
Proof.
  refine (feature_normalize_round_trip sample_column 1 0 _ _ _ _).
  - split; [reflexivity | repeat constructor].
  - simpl. lia.
  - simpl. lia.
  - apply sample_column_variance. simpl. lia.
Defined.

Lemma feature_normalize_idempotent_witness :
  let X_norm := fst (fst (feature_normalize sample_column)) in
  feature_normalize X_norm
  = (X_norm, replicate (ncols sample_column) 0, replicate (ncols sample_column) 1).
Proof.
  apply (feature_normalize_idempotent sample_column).
  - split; [reflexivity | repeat constructor].
  - simpl. lia.
  - apply sample_column_variance.
Defined.

Lemma const_column_entries i : (i < nrows const_column)%nat -> entry const_column i 0 = 5.
Proof. intros Hi. destruct i as [|[|i]]; [reflexivity | reflexivity | simpl in Hi; lia]. Qed.

Lemma feature_normalize_constant_column_witness :
  nth 0 (snd (fst (feature_normalize const_column))) 0 = 5 /\
  nth 0 (snd (feature_normalize const_column)) 0 = 0.
Proof.
  apply (feature_normalize_constant_column const_column 0 5).
  - split; [reflexivity | repeat constructor].
  - simpl. lia.
  - simpl. lia.
  - exact const_column_entries.
Defined.

Lemma square_loss_gradient_inequality_witness :
  fst (square_loss sample_X sample_y sample_theta 1)
    + vdot (snd (square_loss sample_X sample_y sample_theta 1)) sample_delta
  <= fst (square_loss sample_X sample_y (zip_with Rplus sample_theta sample_delta) 1).
Proof.
  apply (square_loss_gradient_inequality sample_X sample_y sample_theta sample_delta 1).
  - split; [reflexivity | repeat constructor].
  - simpl. lia.
  - reflexivity.
  - reflexivity.
  - reflexivity.
  - lra.
Defined.

Lemma hinge_loss_subgradient_inequality_witness :
  fst (hinge_loss sample_X sample_y sample_theta 1)
    + vdot (snd (hinge_loss sample_X sample_y sample_theta 1)) sample_delta
  <= fst (hinge_loss sample_X sample_y (zip_with Rplus sample_theta sample_delta) 1).
Proof.
  apply (hinge_loss_subgradient_inequality sample_X sample_y sample_theta sample_delta 1).
  - split; [reflexivity | repeat constructor].
  - simpl. lia.
  - reflexivity.
  - reflexivity.
  - reflexivity.
  - lra.
Defined.
End Witnesses.
